(** * Checkpointed note pipeline: checkpoint manager and OpenAI retry client

    A shallow embedding of these parts of the repository:

    - [utils/checkpoint.ts] (class [CheckpointManager]) together with the
      JSON file helpers of [utils/json.ts] it persists through, and the
      directory helpers of [utils/fileManager.ts] and [utils/paths.ts];
    - [services/openai.ts] (class [OpenAIService]): the token-per-minute
      rate limiter, the exponential-backoff retry loop and the five
      request methods built on them;
    - [formatDuration] of [utils/progress.ts].

    JavaScript objects that the code mutates in place are modelled by
    explicit state passing; [async] functions are run to completion in
    program order (each [await] is a sequence point); a thrown exception is
    the [Throws] outcome of a computation. *)

From Stdlib Require Import ZArith QArith Qround Lia Ascii.
From stdpp Require Import gmap strings list pretty.

Open Scope Z_scope.
Open Scope string_scope.

(** ** Exceptions and outcomes *)

(** The error classes the modelled code throws or receives. *)
Inductive JsError : Type :=
  | Error (message : string)
  | JSONFileError (message : string)
  | TypeError (message : string)
  | SyntaxError (message : string)
  | PathError (message : string)
  | ENOENT (message : string)
  | EISDIR (message : string).

(** [error.message] *)
Definition message (e : JsError) : string :=
  match e with
  | Error m | JSONFileError m | TypeError m | SyntaxError m | PathError m
  | ENOENT m | EISDIR m => m
  end.

(** [error instanceof JSONFileError] *)
Definition instanceof_JSONFileError (e : JsError) : bool :=
  match e with JSONFileError _ => true | _ => false end.

Inductive Outcome (A : Type) : Type :=
  | Returns (a : A)
  | Throws (e : JsError).
Arguments Returns {A} a.
Arguments Throws {A} e.

Definition threw {A} (o : Outcome A) : bool :=
  match o with Throws _ => true | Returns _ => false end.

(** A computation over a state [S]: it ends by returning or throwing, and
    in both cases leaves a state behind (mutations made before a [throw]
    are not undone). *)
Definition Comp (S A : Type) : Type := S -> Outcome A * S.

Definition ret {S A} (a : A) : Comp S A := fun s => (Returns a, s).
Definition throw {S A} (e : JsError) : Comp S A := fun s => (Throws e, s).
Definition bind {S A B} (c : Comp S A) (k : A -> Comp S B) : Comp S B :=
  fun s => match c s with
           | (Returns a, s') => k a s'
           | (Throws e, s') => (Throws e, s')
           end.
(** [try { c } catch (error) { h error }] *)
Definition try_catch {S A} (c : Comp S A) (h : JsError -> Comp S A) : Comp S A :=
  fun s => match c s with
           | (Returns a, s') => (Returns a, s')
           | (Throws e, s') => h e s'
           end.

Notation "x <- c ;; k" := (bind c (fun x => k))
  (at level 100, c at next level, right associativity).
Notation "c ;;; k" := (bind c (fun _ => k))
  (at level 100, right associativity).

(** ** The checkpoint document ([utils/checkpoint.ts]) *)

Module Checkpoint.

Inductive ProcessingStage : Type :=
  | RAW_EXPORT | ENRICHMENT | CLUSTERING | FINAL_MERGE.

Inductive StageStatus : Type :=
  | NOT_STARTED | IN_PROGRESS | COMPLETED | FAILED.

#[global] Instance ProcessingStage_eq_dec : EqDecision ProcessingStage.
Proof. solve_decision. Defined.
#[global] Instance StageStatus_eq_dec : EqDecision StageStatus.
Proof. solve_decision. Defined.

(** [interface StageProgress]; an optional field is [None] when it is
    [undefined]. *)
Record StageProgress : Type := mkStageProgress {
  status : StageStatus;
  processedNoteIds : list string;
  failedNoteIds : list string;
  startTime : option string;
  completionTime : option string;
  lastProcessedTime : option string;
  error : option string
}.

(** The object [stages], one property per member of [ProcessingStage]. *)
Record Stages : Type := mkStages {
  raw_export : StageProgress;
  enrichment : StageProgress;
  clustering : StageProgress;
  final_merge : StageProgress
}.

(** [interface CheckpointMetadata] *)
Record CheckpointMetadata : Type := mkCheckpointMetadata {
  version : string;
  totalNotes : Z;
  stages : Stages;
  createdAt : string;
  lastUpdated : string
}.

(** [stages[stage]] *)
Definition stage_get (st : Stages) (stage : ProcessingStage) : StageProgress :=
  match stage with
  | RAW_EXPORT => raw_export st
  | ENRICHMENT => enrichment st
  | CLUSTERING => clustering st
  | FINAL_MERGE => final_merge st
  end.

(** The effect on [stages] of mutating the object [stages[stage]]. *)
Definition stage_set (st : Stages) (stage : ProcessingStage) (p : StageProgress) : Stages :=
  match stage with
  | RAW_EXPORT => mkStages p (enrichment st) (clustering st) (final_merge st)
  | ENRICHMENT => mkStages (raw_export st) p (clustering st) (final_merge st)
  | CLUSTERING => mkStages (raw_export st) (enrichment st) p (final_merge st)
  | FINAL_MERGE => mkStages (raw_export st) (enrichment st) (clustering st) p
  end.

Definition set_stages (m : CheckpointMetadata) (st : Stages) : CheckpointMetadata :=
  mkCheckpointMetadata (version m) (totalNotes m) st (createdAt m) (lastUpdated m).
Definition set_totalNotes (m : CheckpointMetadata) (n : Z) : CheckpointMetadata :=
  mkCheckpointMetadata (version m) n (stages m) (createdAt m) (lastUpdated m).
Definition set_lastUpdated (m : CheckpointMetadata) (t : string) : CheckpointMetadata :=
  mkCheckpointMetadata (version m) (totalNotes m) (stages m) (createdAt m) t.

(** [metadata.stages[stage] = p] seen from the document. *)
Definition update_stage (m : CheckpointMetadata) (stage : ProcessingStage)
    (p : StageProgress) : CheckpointMetadata :=
  set_stages m (stage_set (stages m) stage p).

(** [Array.prototype.includes] and [Array.prototype.push] on string arrays. *)
Definition includes (l : list string) (x : string) : bool := bool_decide (x ∈ l).
Definition push (l : list string) (x : string) : list string := l ++ [x].

(** [i.toString()] for an integer index. *)
Definition toString (i : Z) : string := pretty i.


(** ** Platform: JSON text, the file system and the clock *)

(** The values the modelled code hands to the JSON helpers: a string or a
    checkpoint document. *)
Inductive JSValue : Type :=
  | JStr (s : string)
  | JDoc (m : CheckpointMetadata).

(** JSON text is kept abstract: the text [JSON.stringify] produces for a
    value (compact or indented), or text that does not parse. *)
Inductive JsonText : Type :=
  | Stringified (v : JSValue) (indented : bool)
  | Malformed (raw : string).

(** [JSON.stringify(data, null, FILE_CONFIG.JSON_INDENT)] when [indented],
    [JSON.stringify(data)] otherwise. *)
Definition JSON_stringify (data : JSValue) (indented : bool) : JsonText :=
  Stringified data indented.

(** [JSON.parse(content)] *)
Definition JSON_parse (content : JsonText) : JsError + JSValue :=
  match content with
  | Stringified v _ => inr v
  | Malformed _ => inl (SyntaxError "Unexpected token in JSON")
  end.

(** [JSON.parse(JSON.stringify(m))], the deep copy taken by [saveMetadata]:
    a document without [undefined]-valued array entries is copied as it is
    (an [undefined] property is dropped and reads back as [undefined]). *)
Definition deep_copy (m : CheckpointMetadata) : CheckpointMetadata := m.

(** A template literal [`${v}`]. *)
Definition template (v : JSValue) : string :=
  match v with
  | JStr s => s
  | JDoc _ => "[object Object]"
  end.

(** Calls into [node:fs/promises], as issued. *)
Inductive FsCall : Type :=
  | call_access (path : string)
  | call_mkdir (path : string)
  | call_readFile (path : string)
  | call_writeFile (file : JSValue) (data : JsonText)
  | call_rename (oldPath newPath : string)
  | call_unlink (path : string).

(** The world outside the process: regular files and directories, the
    wall clock (the [reads]-th reading of [new Date().toISOString()] is
    [wall reads]), the working directory, and the log of file-system calls
    made so far (most recent last). Entries are kept under the path
    strings the code hands to the platform: a path with an entry in
    [files] is a regular file, a path in [dirs] without one is a
    directory. *)
Record World : Type := mkWorld {
  files : gmap string JsonText;
  dirs : gset string;
  wall : nat -> string;
  reads : nat;
  cwd : string;
  fslog : list FsCall
}.

Definition set_files (w : World) (f : gmap string JsonText) : World :=
  mkWorld f (dirs w) (wall w) (reads w) (cwd w) (fslog w).
Definition set_dirs (w : World) (d : gset string) : World :=
  mkWorld (files w) d (wall w) (reads w) (cwd w) (fslog w).
Definition logged (c : FsCall) (w : World) : World :=
  mkWorld (files w) (dirs w) (wall w) (reads w) (cwd w) (fslog w ++ [c]).

(** [new Date().toISOString()] *)
Definition new_Date_toISOString : Comp World string :=
  fun w => (Returns (wall w (reads w)),
            mkWorld (files w) (dirs w) (wall w) (S (reads w)) (cwd w) (fslog w)).

(** [access(path, constants.F_OK)] *)
Definition fs_access (path : string) : Comp World unit :=
  fun w =>
    let w := logged (call_access path) w in
    if bool_decide (is_Some (files w !! path)) || bool_decide (path ∈ dirs w)
    then (Returns tt, w)
    else (Throws (ENOENT "no such file or directory"), w).

(** [mkdir(path, { recursive: true })] *)
Definition fs_mkdir (path : string) : Comp World unit :=
  fun w =>
    let w := logged (call_mkdir path) w in
    (Returns tt, set_dirs w ({[path]} ∪ dirs w)).

(** [readFile(path, { encoding })]: a directory cannot be read. *)
Definition fs_readFile (path : string) : Comp World JsonText :=
  fun w =>
    let w := logged (call_readFile path) w in
    match files w !! path with
    | Some content => (Returns content, w)
    | None =>
        if bool_decide (path ∈ dirs w)
        then (Throws (EISDIR "illegal operation on a directory, read"), w)
        else (Throws (ENOENT "no such file or directory"), w)
    end.

(** The directory a path names an entry of: what comes before the last
    ["/"] of the path (the empty string for an entry of the root).
    [None] for a path without ["/"], which names an entry of the working
    directory. *)
Fixpoint parent (path : string) : option string :=
  match path with
  | EmptyString => None
  | String c rest =>
      match parent rest with
      | Some d => Some (String c d)
      | None => if Ascii.eqb c "/"%char then Some EmptyString else None
      end
  end.

(** A file can be created at [path]: nothing is there and the directory
    it is to be an entry of exists (the root and the working directory
    do). *)
Definition creatable (w : World) (path : string) : bool :=
  negb (bool_decide (path ∈ dirs w))
  && match parent path with
     | None | Some EmptyString => true
     | Some d => bool_decide (d ∈ dirs w)
     end.

(** A file can be written at [path]: a regular file is there, to be
    replaced, or one can be created. *)
Definition writable (w : World) (path : string) : bool :=
  bool_decide (is_Some (files w !! path)) || creatable w path.

(** Why no file can be put at [path]. *)
Definition creation_error (w : World) (path : string) : JsError :=
  if bool_decide (path ∈ dirs w)
  then EISDIR "illegal operation on a directory"
  else ENOENT "no such file or directory".

(** [writeFile(file, data, { encoding })]. Node accepts a string (or a
    Buffer, URL or FileHandle) as [file]; for any other value it rejects
    with a [TypeError] (ERR_INVALID_ARG_TYPE) before touching the disk. A
    regular file is overwritten; a new one is created when that is
    possible. *)
Definition fs_writeFile (file : JSValue) (data : JsonText) : Comp World unit :=
  fun w =>
    let w := logged (call_writeFile file data) w in
    match file with
    | JStr path =>
        if writable w path
        then (Returns tt, set_files w (<[path := data]> (files w)))
        else (Throws (creation_error w path), w)
    | JDoc _ => (Throws (TypeError "The path argument must be of type string"), w)
    end.

(** [rename(oldPath, newPath)] of a regular file, onto a regular file or
    to a place where a file can be created. *)
Definition fs_rename (oldPath newPath : string) : Comp World unit :=
  fun w =>
    let w := logged (call_rename oldPath newPath) w in
    match files w !! oldPath with
    | Some content =>
        if writable w newPath
        then (Returns tt,
              set_files w (<[newPath := content]> (delete oldPath (files w))))
        else (Throws (creation_error w newPath), w)
    | None => (Throws (ENOENT "no such file or directory"), w)
    end.

(** [unlink(path)]: removes a regular file, and nothing else. *)
Definition fs_unlink (path : string) : Comp World unit :=
  fun w =>
    let w := logged (call_unlink path) w in
    match files w !! path with
    | Some _ => (Returns tt, set_files w (delete path (files w)))
    | None =>
        if bool_decide (path ∈ dirs w)
        then (Throws (EISDIR "illegal operation on a directory, unlink"), w)
        else (Throws (ENOENT "no such file or directory"), w)
    end.

(** ** [node:path] (POSIX) *)

(** The segments of a path: the pieces between its ["/"] separators. *)
Fixpoint segments (path : string) : list string :=
  match path with
  | EmptyString => [EmptyString]
  | String c rest =>
      if Ascii.eqb c "/"%char then EmptyString :: segments rest
      else
        match segments rest with
        | segment :: more => String c segment :: more
        | [] => [String c EmptyString]
        end
  end.

(** One round of the loop of [normalizeString]: what a segment does to
    the segments kept so far (latest first). An empty segment and ["."]
    are dropped; [".."] removes the latest segment, or is kept itself
    where the path may climb above its start; any other segment is
    kept. *)
Definition normalize_segment (allowAboveRoot : bool) (kept : list string)
    (segment : string) : list string :=
  if bool_decide (segment = EmptyString \/ segment = ".") then kept
  else if bool_decide (segment = "..") then
    match kept with
    | [] => if allowAboveRoot then [".."] else []
    | latest :: earlier =>
        if bool_decide (latest = "..")
        then (if allowAboveRoot then ".." :: kept else kept)
        else earlier
    end
  else segment :: kept.

(** [segments.join('/')] *)
Fixpoint join_segments (l : list string) : string :=
  match l with
  | [] => EmptyString
  | [segment] => segment
  | segment :: more => segment +:+ "/" +:+ join_segments more
  end.

Definition kept_segments (path : string) (allowAboveRoot : bool) : list string :=
  foldl (normalize_segment allowAboveRoot) [] (segments path).

Definition normalizeString (path : string) (allowAboveRoot : bool) : string :=
  join_segments (reverse (kept_segments path allowAboveRoot)).

Fixpoint last_char (s : string) : option ascii :=
  match s with
  | EmptyString => None
  | String c EmptyString => Some c
  | String _ rest => last_char rest
  end.

Definition isAbsolute (path : string) : bool :=
  match path with
  | String c _ => Ascii.eqb c "/"%char
  | EmptyString => false
  end.
Definition trailingSeparator (path : string) : bool :=
  bool_decide (last_char path = Some "/"%char).

(** [path.normalize(path)] *)
Definition normalize (path : string) : string :=
  if bool_decide (path = EmptyString) then "."
  else
    let res := normalizeString path (negb (isAbsolute path)) in
    if bool_decide (res = EmptyString) then
      if isAbsolute path then "/"
      else if trailingSeparator path then "./" else "."
    else
      let res := if trailingSeparator path then res +:+ "/" else res in
      if isAbsolute path then "/" +:+ res else res.

(** [path.join(a, b)]: the arguments that are not empty, joined by ["/"]
    and normalised. *)
Definition path_join (a b : string) : string :=
  match a, b with
  | EmptyString, EmptyString => "."
  | EmptyString, _ => normalize b
  | _, EmptyString => normalize a
  | _, _ => normalize (a +:+ "/" +:+ b)
  end.
Arguments path_join : simpl never.

(** A character occurs in a string. *)
Fixpoint has_char (c : ascii) (s : string) : bool :=
  match s with
  | EmptyString => false
  | String c' rest => Ascii.eqb c' c || has_char c rest
  end.

(** A name that is one segment of a path: not empty, without ["/"], and
    neither ["."] nor [".."]. *)
Definition plain (name : string) : Prop :=
  name <> EmptyString /\ name <> "." /\ name <> ".."
  /\ has_char "/"%char name = false.

(** What [path.join(a, name)] puts before a plain [name]. *)
Definition join_prefix (a : string) : string :=
  (if isAbsolute a then "/" else EmptyString)
  +:+ match kept_segments a (negb (isAbsolute a)) with
      | [] => EmptyString
      | kept => join_segments (reverse kept) +:+ "/"
      end.

(** One argument of [path.resolve], taken in its turn (the arguments are
    read from the last to the first, and the working directory after
    them): nothing is added once the path is absolute, and an empty
    argument is skipped. *)
Definition resolve_argument (resolved : string * bool) (path : string)
    : string * bool :=
  let '(resolvedPath, resolvedAbsolute) := resolved in
  if resolvedAbsolute then resolved
  else if bool_decide (path = EmptyString) then resolved
  else (path +:+ "/" +:+ resolvedPath, isAbsolute path).

(** [path.resolve(path)], in a process whose working directory is [cwd]. *)
Definition path_resolve (cwd path : string) : string :=
  let '(resolvedPath, resolvedAbsolute) :=
    resolve_argument (resolve_argument (EmptyString, false) path) cwd in
  let resolvedPath := normalizeString resolvedPath (negb resolvedAbsolute) in
  if resolvedAbsolute then "/" +:+ resolvedPath
  else if bool_decide (resolvedPath = EmptyString) then "." else resolvedPath.

(** ** [config.ts] *)

Definition BASE_DIR (w : World) : string := path_join (cwd w) "data".
Definition CHECKPOINT_FILENAME : string := "checkpoint.json".
Definition CHECKPOINT_DIRECTORY (w : World) : string := BASE_DIR w.
Definition CHECKPOINT_FULL_PATH (w : World) : string :=
  path_join (CHECKPOINT_DIRECTORY w) CHECKPOINT_FILENAME.

(** ** [utils/paths.ts] *)

Definition fileExists (filePath : string) : Comp World bool :=
  try_catch (fs_access filePath ;;; ret true) (fun _ => ret false).

Definition ensureDirectory (dirPath : string) : Comp World unit :=
  try_catch (fs_access dirPath)
    (fun _ =>
       try_catch (fs_mkdir dirPath)
         (fun error =>
            throw (PathError ("Failed to create directory " +:+ dirPath +:+ ": "
                          +:+ message error)))).

(** ** [utils/json.ts] *)

Definition readJSON (filePath : string) : Comp World JSValue :=
  try_catch
    (content <- fs_readFile filePath ;;
     match JSON_parse content with
     | inr v => ret v
     | inl e => throw e
     end)
    (fun error =>
       match error with
       | ENOENT _ => throw (JSONFileError ("File not found: " +:+ filePath))
       | SyntaxError _ => throw (JSONFileError ("Invalid JSON in file: " +:+ filePath))
       | _ => throw (JSONFileError ("Error reading JSON file " +:+ filePath +:+ ": "
                                    +:+ message error))
       end).

(** [writeJSON(data, filePath, pretty = true)]. The parameter [filePath]
    is declared [string]; it is a [JSValue] here because a caller passes a
    value of type [any] (see [saveMetadata]). *)
Definition writeJSON (data : JSValue) (filePath : JSValue) (pretty : bool)
    : Comp World unit :=
  try_catch
    (let jsonString := JSON_stringify data pretty in
     fs_writeFile filePath jsonString)
    (fun error =>
       throw (JSONFileError ("Error writing JSON to file " +:+ template filePath
                             +:+ ": " +:+ message error))).

(** [writeJSONSafe(data, filePath)]: temporary file, then rename. *)
Definition writeJSONSafe (data : JSValue) (filePath : string) : Comp World unit :=
  let tempPath := filePath +:+ ".tmp" in
  try_catch
    (writeJSON data (JStr tempPath) true ;;;
     fs_rename tempPath filePath)
    (fun error =>
       try_catch (fs_unlink tempPath) (fun _ => ret tt) ;;;
       throw (JSONFileError ("Error in safe JSON write to " +:+ filePath +:+ ": "
                             +:+ message error))).


(** ** [class CheckpointManager] *)

(** The instance: its private field [metadata] ([None] is [null]). *)
Record CheckpointManager : Type := mkManager {
  metadata : option CheckpointMetadata
}.

(** [new CheckpointManager()] *)
Definition new_CheckpointManager : CheckpointManager := mkManager None.

(** A manager instance together with the world it runs in. *)
Record System : Type := mkSystem {
  this : CheckpointManager;
  world : World
}.

(** Run a world computation from a method of the manager. *)
Definition io {A} (c : Comp World A) : Comp System A :=
  fun s => let (o, w) := c (world s) in (o, mkSystem (this s) w).

Definition get_metadata : Comp System (option CheckpointMetadata) :=
  fun s => (Returns (metadata (this s)), s).
Definition set_metadata (m : CheckpointMetadata) : Comp System unit :=
  fun s => (Returns tt, mkSystem (mkManager (Some m)) (world s)).
Definition get_world : Comp System World :=
  fun s => (Returns (world s), s).

Definition not_initialized : JsError := Error "Checkpoint metadata not initialized".

(** The guard that opens every method:
    [if (!this.metadata) throw new Error('Checkpoint metadata not initialized')]. *)
Definition require_metadata : Comp System CheckpointMetadata :=
  o <- get_metadata ;;
  match o with
  | None => throw not_initialized
  | Some m => ret m
  end.

(** [private async saveMetadata()]. The call reads
    [writeJSON(CHECKPOINT_CONFIG.FULL_PATH, JSON.parse(JSON.stringify(this.metadata)))]
    against the signature [writeJSON(data, filePath, pretty = true)]: the
    path string is passed as [data] and the copied document as [filePath]. *)
Definition saveMetadata : Comp System unit :=
  m <- require_metadata ;;
  now <- io new_Date_toISOString ;;
  let m := set_lastUpdated m now in
  set_metadata m ;;;
  w <- get_world ;;
  io (writeJSON (JStr (CHECKPOINT_FULL_PATH w)) (JDoc (deep_copy m)) true).

(** The stage record a new checkpoint starts with. *)
Definition fresh_stage : StageProgress :=
  mkStageProgress NOT_STARTED [] [] None None None None.

(** [async initialize(totalNotes)]. The value read from an existing file is
    used as a [CheckpointMetadata] without a check ([readJSON<T>] casts);
    the model covers files that hold a checkpoint document or do not
    parse. For a file holding other JSON the code fails with a [TypeError]
    on its first property assignment while the field keeps the foreign
    value; the typed field of the model is left as it was in that case. *)
Definition initialize (totalNotes : Z) : Comp System unit :=
  try_catch
    (w <- get_world ;;
     io (ensureDirectory (CHECKPOINT_DIRECTORY w)) ;;;
     exists_ <- io (fileExists (CHECKPOINT_FULL_PATH w)) ;;
     if (exists_ : bool) then
       v <- io (readJSON (CHECKPOINT_FULL_PATH w)) ;;
       match v with
       | JDoc m =>
           set_metadata m ;;;
           if negb (Z.eqb (Checkpoint.totalNotes m) totalNotes)
           then set_metadata (set_totalNotes m totalNotes) ;;; saveMetadata
           else ret tt
       | JStr _ => throw (TypeError "Cannot create property totalNotes on string")
       end
     else
       created <- io new_Date_toISOString ;;
       updated <- io new_Date_toISOString ;;
       set_metadata
         (mkCheckpointMetadata "1.0.0" totalNotes
            (mkStages fresh_stage fresh_stage fresh_stage fresh_stage)
            created updated) ;;;
       saveMetadata)
    (fun error =>
       if instanceof_JSONFileError error
       then throw (Error ("Failed to initialize checkpoint: " +:+ message error))
       else throw error).

(** [async startStage(stage)] *)
Definition startStage (stage : ProcessingStage) : Comp System unit :=
  m <- require_metadata ;;
  let stageProgress := stage_get (stages m) stage in
  if bool_decide (status stageProgress = IN_PROGRESS) then ret tt
  else
    now <- io new_Date_toISOString ;;
    let stageProgress :=
      mkStageProgress IN_PROGRESS (processedNoteIds stageProgress)
        (failedNoteIds stageProgress) (Some now) (completionTime stageProgress)
        (lastProcessedTime stageProgress) None in
    set_metadata (update_stage m stage stageProgress) ;;;
    saveMetadata.

(** The two [if] branches of [updateNoteProgress] on the id arrays. *)
Definition record_note (p : StageProgress) (noteId : string) (success : bool)
    : StageProgress :=
  if success then
    if negb (includes (processedNoteIds p) noteId)
    then mkStageProgress (status p) (push (processedNoteIds p) noteId)
           (failedNoteIds p) (startTime p) (completionTime p)
           (lastProcessedTime p) (error p)
    else p
  else
    if negb (includes (failedNoteIds p) noteId)
    then mkStageProgress (status p) (processedNoteIds p)
           (push (failedNoteIds p) noteId) (startTime p) (completionTime p)
           (lastProcessedTime p) (error p)
    else p.

Definition set_lastProcessedTime (p : StageProgress) (t : string) : StageProgress :=
  mkStageProgress (status p) (processedNoteIds p) (failedNoteIds p) (startTime p)
    (completionTime p) (Some t) (error p).

(** [async updateNoteProgress(stage, noteId, success)] *)
Definition updateNoteProgress (stage : ProcessingStage) (noteId : string)
    (success : bool) : Comp System unit :=
  m <- require_metadata ;;
  let stageProgress := record_note (stage_get (stages m) stage) noteId success in
  now <- io new_Date_toISOString ;;
  set_metadata (update_stage m stage (set_lastProcessedTime stageProgress now)) ;;;
  saveMetadata.

(** [async completeStage(stage)] *)
Definition completeStage (stage : ProcessingStage) : Comp System unit :=
  m <- require_metadata ;;
  let stageProgress := stage_get (stages m) stage in
  now <- io new_Date_toISOString ;;
  let stageProgress :=
    mkStageProgress COMPLETED (processedNoteIds stageProgress)
      (failedNoteIds stageProgress) (startTime stageProgress) (Some now)
      (lastProcessedTime stageProgress) (error stageProgress) in
  set_metadata (update_stage m stage stageProgress) ;;;
  saveMetadata.

(** [async failStage(stage, error)] *)
Definition failStage (stage : ProcessingStage) (error : string) : Comp System unit :=
  m <- require_metadata ;;
  let stageProgress := stage_get (stages m) stage in
  let stageProgress :=
    mkStageProgress FAILED (processedNoteIds stageProgress)
      (failedNoteIds stageProgress) (startTime stageProgress)
      (completionTime stageProgress) (lastProcessedTime stageProgress)
      (Some error) in
  set_metadata (update_stage m stage stageProgress) ;;;
  saveMetadata.

(** [getStageProgress(stage)] *)
Definition getStageProgress (stage : ProcessingStage) : Comp System StageProgress :=
  m <- require_metadata ;;
  ret (stage_get (stages m) stage).

(** [getStageProgressPercentage(stage)]: the quotient
    [(processed / totalNotes) * 100] is a floating-point number; the model
    returns its two integer operands, numerator [processed * 100] over
    denominator [totalNotes]. *)
Definition getStageProgressPercentage (stage : ProcessingStage) : Comp System (Z * Z) :=
  m <- require_metadata ;;
  let stageProgress := stage_get (stages m) stage in
  let processed := Z.of_nat (length (processedNoteIds stageProgress)) in
  ret (processed * 100, totalNotes m).

(** The [for] loop of [getNextNoteForStage] over the remaining indices. *)
Fixpoint first_unsettled (stageProgress : StageProgress) (indices : list Z)
    : option string :=
  match indices with
  | [] => None
  | i :: rest =>
      let noteId := toString i in
      if negb (includes (processedNoteIds stageProgress) noteId)
         && negb (includes (failedNoteIds stageProgress) noteId)
      then Some noteId
      else first_unsettled stageProgress rest
  end.

(** [getNextNoteForStage(stage)]; [None] is [null]. The loop variable runs
    through [0, 1, ..., totalNotes - 1]. *)
Definition getNextNoteForStage (stage : ProcessingStage) : Comp System (option string) :=
  m <- require_metadata ;;
  let stageProgress := stage_get (stages m) stage in
  ret (first_unsettled stageProgress (seqZ 0 (totalNotes m))).

(** [isStageComplete(stage)] *)
Definition isStageComplete (stage : ProcessingStage) : Comp System bool :=
  m <- require_metadata ;;
  ret (bool_decide (status (stage_get (stages m) stage) = COMPLETED)).

(** [getMetadata()]: a shallow copy of the document. *)
Definition getMetadata : Comp System CheckpointMetadata :=
  m <- require_metadata ;;
  ret m.

(** ** Driving a manager *)

(** The outcome of running a method, and the system it leaves behind. *)
Definition outcome {A} (c : Comp System A) (s : System) : Outcome A := fst (c s).
Definition after {A} (c : Comp System A) (s : System) : System := snd (c s).

(** The document held by the manager of a system. *)
Definition document (s : System) : option CheckpointMetadata := metadata (this s).

(** The progress record of [stage], when the manager holds a document. *)
Definition progress_of (s : System) (stage : ProcessingStage) : option StageProgress :=
  (fun m => stage_get (stages m) stage) <$> document s.

Definition status_of (s : System) (stage : ProcessingStage) : option StageStatus :=
  status <$> progress_of s stage.

(** The file-system calls a method adds to the log. *)
Definition new_fs_calls {A} (c : Comp System A) (s : System) : list FsCall :=
  drop (length (fslog (world s))) (fslog (world (after c s))).

(** The mutating calls a client can make on an initialised manager. *)
Inductive Call : Type :=
  | do_startStage (stage : ProcessingStage)
  | do_updateNoteProgress (stage : ProcessingStage) (noteId : string) (success : bool)
  | do_completeStage (stage : ProcessingStage)
  | do_failStage (stage : ProcessingStage) (error : string).

Definition perform (c : Call) : Comp System unit :=
  match c with
  | do_startStage stage => startStage stage
  | do_updateNoteProgress stage noteId success => updateNoteProgress stage noteId success
  | do_completeStage stage => completeStage stage
  | do_failStage stage error => failStage stage error
  end.

(** A client making the calls one after the other; an exception thrown by
    a call does not undo what the call did to the manager, and the client
    goes on with the next call. *)
Fixpoint perform_all (cs : list Call) (s : System) : System :=
  match cs with
  | [] => s
  | c :: cs => perform_all cs (after (perform c) s)
  end.

(** No id is both processed and failed, in any stage of the document. *)
Definition settled_disjoint (m : CheckpointMetadata) : Prop :=
  forall stage : ProcessingStage,
    processedNoteIds (stage_get (stages m) stage)
    ## failedNoteIds (stage_get (stages m) stage).

Definition stages_disjoint (s : System) : Prop :=
  match document s with
  | Some m => settled_disjoint m
  | None => True
  end.

(** A call reports for an id the outcome opposite to the one the stage
    already records for it. *)
Definition contradicts (c : Call) (s : System) : Prop :=
  match c, document s with
  | do_updateNoteProgress stage noteId true, Some m =>
      noteId ∈ failedNoteIds (stage_get (stages m) stage)
  | do_updateNoteProgress stage noteId false, Some m =>
      noteId ∈ processedNoteIds (stage_get (stages m) stage)
  | _, _ => False
  end.

(** No call of the sequence contradicts the state it is made in. *)
Fixpoint consistent (cs : list Call) (s : System) : Prop :=
  match cs with
  | [] => True
  | c :: cs => ~ contradicts c s /\ consistent cs (after (perform c) s)
  end.

(** An index is settled in a stage record when its id is in one of the
    two arrays. *)
Definition settled (p : StageProgress) (i : Z) : Prop :=
  toString i ∈ processedNoteIds p \/ toString i ∈ failedNoteIds p.

(** What every failing [saveMetadata] throws. *)
Definition save_error : JsError :=
  JSONFileError
    "Error writing JSON to file [object Object]: The path argument must be of type string".

(** Sample worlds: an empty disk, and a disk that already holds the
    checkpoint of a one-note collection. *)
Definition sample_wall (n : nat) : string := "2025-01-01T00:00:00." +:+ pretty n.

Definition empty_world : World := mkWorld ∅ ∅ sample_wall 0 "/app" [].

Definition stored_document : CheckpointMetadata :=
  mkCheckpointMetadata "1.0.0" 1
    (mkStages fresh_stage fresh_stage fresh_stage fresh_stage)
    "2024-12-31T00:00:00.000Z" "2024-12-31T00:00:00.000Z".

Definition stored_world : World :=
  mkWorld {[ "/app/data/checkpoint.json" := Stringified (JDoc stored_document) true ]}
    {[ "/app/data" ]} sample_wall 0 "/app" [].

Definition boot (w : World) : System := mkSystem new_CheckpointManager w.

#[global] Instance contradicts_dec c s : Decision (contradicts c s).
Proof.
  unfold contradicts.
  destruct c as [|? ? []| |], (document s); apply _.
Defined.

#[global] Instance consistent_dec cs s : Decision (consistent cs s).
Proof. revert s. induction cs; intros s; simpl; apply _. Defined.

(** A manager initialised, without error, from the stored checkpoint. *)
Definition loaded_system : System := after (initialize 1) (boot stored_world).

(** The scenario of the specification, run from an empty disk: every
    mutating call throws on its save, and the client goes on. *)
Definition scenario_calls : list Call :=
  [ do_startStage RAW_EXPORT;
    do_updateNoteProgress RAW_EXPORT "0" true;
    do_updateNoteProgress RAW_EXPORT "1" false ].

Definition scenario_system : System :=
  perform_all scenario_calls (after (initialize 3) (boot empty_world)).

(** A sequence of calls that reports each id with one outcome only. *)
Definition disjoint_calls : list Call :=
  [ do_startStage RAW_EXPORT;
    do_updateNoteProgress RAW_EXPORT "0" true;
    do_updateNoteProgress RAW_EXPORT "1" false;
    do_updateNoteProgress RAW_EXPORT "1" false;
    do_completeStage RAW_EXPORT ].

(** A manager initialised from the stored checkpoint, whose first stage
    was then started and completed. *)
Definition completed_system : System :=
  perform_all [ do_startStage RAW_EXPORT; do_completeStage RAW_EXPORT ]
    (after (initialize 1) (boot stored_world)).

(** ** [utils/json.ts], continued *)

(** [updateJSON(filePath, updateFn)]: read, transform, write back.
    [updateFn] is the caller's transformation; it returns the new value or
    throws. *)
Definition updateJSON (filePath : string) (updateFn : JSValue -> Outcome JSValue)
    : Comp World JSValue :=
  try_catch
    (data <- readJSON filePath ;;
     updatedData <- (fun w => (updateFn data, w)) ;;
     writeJSON updatedData (JStr filePath) true ;;;
     ret updatedData)
    (fun error =>
       throw (JSONFileError ("Error updating JSON file " +:+ filePath +:+ ": "
                             +:+ message error))).

(** ** [utils/fileManager.ts] *)

(** [keyof typeof DIRECTORIES] and the table [DIRECTORIES] of [config.ts]. *)
Inductive Directory : Type := RAW | ENRICHED | CLUSTERS | FINAL.

Definition DIRECTORIES (w : World) (directory : Directory) : string :=
  path_join (BASE_DIR w)
    match directory with
    | RAW => "raw"
    | ENRICHED => "enriched"
    | CLUSTERS => "clusters"
    | FINAL => "final"
    end.

(** [getFilePath(directory, filename)] of [utils/paths.ts]. *)
Definition getFilePath (w : World) (directory : Directory) (filename : string) : string :=
  path_join (DIRECTORIES w directory) filename.

(** [readJSONFromDirectory(directory, filename)] *)
Definition readJSONFromDirectory (directory : Directory) (filename : string)
    : Comp World JSValue :=
  fun w => readJSON (getFilePath w directory filename) w.

(** [writeJSONToDirectory(data, directory, filename, safe = false)] *)
Definition writeJSONToDirectory (data : JSValue) (directory : Directory)
    (filename : string) (safe : bool) : Comp World unit :=
  fun w =>
    let filePath := getFilePath w directory filename in
    if safe then writeJSONSafe data filePath w
    else writeJSON data (JStr filePath) true w.

(** [updateJSONInDirectory(directory, filename, updateFn)] *)
Definition updateJSONInDirectory (directory : Directory) (filename : string)
    (updateFn : JSValue -> Outcome JSValue) : Comp World JSValue :=
  fun w => updateJSON (getFilePath w directory filename) updateFn w.

(** [checkFileExists(directory, filename)] *)
Definition checkFileExists (directory : Directory) (filename : string)
    : Comp World bool :=
  fun w => fileExists (getFilePath w directory filename) w.

(** The stage a call works on. *)
Definition call_stage (c : Call) : ProcessingStage :=
  match c with
  | do_startStage stage | do_updateNoteProgress stage _ _
  | do_completeStage stage | do_failStage stage _ => stage
  end.

(** ** [utils/paths.ts], continued *)

(** [isPathInDirectory(directory, path)]; [startsWith] is [String.prefix]. *)
Definition isPathInDirectory (w : World) (directory : Directory) (path : string)
    : bool :=
  let dirPath := path_resolve (cwd w) (DIRECTORIES w directory) in
  let resolvedPath := path_resolve (cwd w) path in
  String.prefix dirPath resolvedPath.

(** A path is a directory or lies below it. *)
Definition within (dir path : string) : Prop :=
  path = dir \/ exists rest, path = dir +:+ "/" +:+ rest.

(** The [while] loop of [getUniqueFilename]. [fuel] bounds the number of
    iterations; when it runs out the loop is left with the name at hand
    (see [getUniqueFilename] for why this does not happen). *)
Fixpoint getUniqueFilename_loop (fuel : nat) (dir base ext : string)
    (counter : nat) (uniqueName : string) : Comp World string :=
  exists_ <- fileExists (path_join dir uniqueName) ;;
  if (exists_ : bool) then
    match fuel with
    | O => ret uniqueName
    | S fuel =>
        let counter := S counter in
        getUniqueFilename_loop fuel dir base ext counter
          (base +:+ "_" +:+ pretty counter +:+ ext)
    end
  else ret uniqueName.

(** [getUniqueFilename(directory, filename)]; [extname] and [basename]
    are those of [node:path]. Each iteration tries a new name, so the loop
    ends within one more iteration than there are files and directories
    on the disk. *)
Definition getUniqueFilename (extname : string -> string)
    (basename : string -> string -> string) (directory : Directory)
    (filename : string) : Comp World string :=
  fun w =>
    let dir := DIRECTORIES w directory in
    let ext := extname filename in
    let base := basename filename ext in
    getUniqueFilename_loop (S (size (files w) + size (dirs w))) dir base ext
      0 filename w.

(** Something, a file or a directory, is at a path. *)
Definition present (w : World) (path : string) : Prop :=
  is_Some (files w !! path) \/ path ∈ dirs w.

(** ** Draining a stage *)

(** A client of the manager that works through a stage the way the
    manager's interface is meant to be used: ask [getNextNoteForStage] for
    the next note, stop when there is none, otherwise record an outcome
    for that note with [updateNoteProgress] and ask again. [rounds] gives
    the outcome to record in each round (at most [length rounds] rounds
    are made); the client goes on when the recording call throws. *)
Fixpoint drain (rounds : list bool) (stage : ProcessingStage) (s : System) : System :=
  match rounds with
  | [] => s
  | success :: rounds =>
      match outcome (getNextNoteForStage stage) s with
      | Returns (Some nextNoteId) =>
          drain rounds stage (after (updateNoteProgress stage nextNoteId success) s)
      | _ => s
      end
  end.

(** A disk whose checkpoint file is damaged, and one whose checkpoint was
    written for ten notes, two of them settled. *)
Definition damaged_world : World :=
  mkWorld {[ "/app/data/checkpoint.json" := Malformed "{ version: " ]}
    {[ "/app/data" ]} sample_wall 0 "/app" [].

(** A disk on which the checkpoint path is taken by a directory. *)
Definition blocked_world : World :=
  mkWorld ∅ {[ "/app/data"; "/app/data/checkpoint.json" ]} sample_wall 0 "/app" [].

Definition resumed_document : CheckpointMetadata :=
  mkCheckpointMetadata "1.0.0" 10
    (mkStages
       (mkStageProgress IN_PROGRESS ["0"; "2"] ["1"]
          (Some "2024-12-31T00:00:00.000Z") None
          (Some "2024-12-31T00:00:05.000Z") None)
       fresh_stage fresh_stage fresh_stage)
    "2024-12-31T00:00:00.000Z" "2024-12-31T00:00:05.000Z".

(** A disk whose directory of raw notes holds [note.json] and
    [note_1.json]. *)
Definition crowded_world : World :=
  mkWorld
    {[ "/app/data/raw/note.json" := Stringified (JStr "first") true;
       "/app/data/raw/note_1.json" := Stringified (JStr "second") true ]}
    {[ "/app/data"; "/app/data/raw" ]} sample_wall 0 "/app" [].

Definition resumed_world : World :=
  mkWorld {[ "/app/data/checkpoint.json" := Stringified (JDoc resumed_document) true ]}
    {[ "/app/data" ]} sample_wall 0 "/app" [].

End Checkpoint.

(** ** [utils/progress.ts] *)

Module Progress.

(** [formatDuration(ms)] for a whole number of milliseconds that a double
    holds exactly (at most 2^53 in absolute value), as the elapsed time
    of a stage is. For these, [Math.floor(x / y)] is the integer quotient
    [x / y]: the rounded quotient of the doubles does not reach the next
    integer. [%] is [Z.rem]. *)
Definition formatDuration (ms : Z) : string :=
  if (ms <? 1000)%Z then pretty ms +:+ "ms"
  else
    let seconds := ms / 1000 in
    let minutes := seconds / 60 in
    let hours := minutes / 60 in
    if (0 <? hours)%Z then
      pretty hours +:+ "h " +:+ pretty (Z.rem minutes 60) +:+ "m "
      +:+ pretty (Z.rem seconds 60) +:+ "s"
    else if (0 <? minutes)%Z then
      pretty minutes +:+ "m " +:+ pretty (Z.rem seconds 60) +:+ "s"
    else pretty seconds +:+ "s".

End Progress.

(** ** [services/openai.ts]: rate limiting and retry *)

Module OpenAI.

(** [RATE_LIMITS[type].TOKENS_PER_MINUTE] *)
Inductive LimitType : Type := COMPLETIONS | EMBEDDINGS.

#[global] Instance LimitType_eq_dec : EqDecision LimitType.
Proof. solve_decision. Defined.

Definition TOKENS_PER_MINUTE (type : LimitType) : Z :=
  match type with
  | COMPLETIONS => 90000
  | EMBEDDINGS => 150000
  end.

(** A JavaScript number, as [maxRetries] can be given one: a finite value
    (every finite double is a rational), an infinity or [NaN]. *)
Inductive JsNumber : Type :=
  | Finite (q : Q)
  | PosInfinity
  | NegInfinity
  | NaN.

(** A number in a condition: [0] and [NaN] count as false. *)
Definition truthy (n : JsNumber) : bool :=
  match n with
  | Finite q => negb (Qeq_bool q 0)
  | NaN => false
  | PosInfinity | NegInfinity => true
  end.

(** [RETRY_CONFIG] *)
Definition MAX_RETRIES : JsNumber := Finite 3.
Definition INITIAL_RETRY_DELAY : Z := 1000.
Definition MAX_RETRY_DELAY : Z := 8000.
Definition BACKOFF_FACTOR : Z := 2.

(** The fields of [OpenAIService] the limiter and the retry loop use. *)
Record OpenAIService : Type := mkService {
  maxRetries : JsNumber;
  completionsTokens : Z;
  embeddingsTokens : Z;
  lastCompletionTime : Z;
  lastEmbeddingTime : Z
}.

(** [constructor(config)]; [config_maxRetries] is [config.maxRetries],
    [None] when it is [undefined]. The field is
    [config.maxRetries || RETRY_CONFIG.MAX_RETRIES]: the default replaces
    a missing value, [0] and [NaN], and nothing else. *)
Definition new_OpenAIService (config_maxRetries : option JsNumber) : OpenAIService :=
  mkService
    (match config_maxRetries with
     | Some n => if truthy n then n else MAX_RETRIES
     | None => MAX_RETRIES
     end)
    0 0 0 0.

(** What a run does that can be observed from outside the service:
    entering the rate limiter, sleeping, and invoking the wrapped
    operation (numbered from 0 in order of invocation). *)
Inductive Event : Type :=
  | ev_rate_limit (type : LimitType) (tokens : Z)
  | ev_sleep (ms : Z)
  | ev_invoke (n : nat).

(** The clock ([Date.now()], milliseconds), the number of invocations of
    the wrapped operation so far, and the events so far (latest last). *)
Record Runtime : Type := mkRuntime {
  clock : Z;
  invocations : nat;
  events : list Event
}.

Record System : Type := mkSystem {
  this : OpenAIService;
  runtime : Runtime
}.

Definition emit (e : Event) : Comp System unit :=
  fun s => (Returns tt,
            mkSystem (this s)
              (mkRuntime (clock (runtime s)) (invocations (runtime s))
                 (events (runtime s) ++ [e]))).

(** [Date.now()] *)
Definition Date_now : Comp System Z :=
  fun s => (Returns (clock (runtime s)), s).

(** [await this.sleep(ms)]: the timer fires once [ms] milliseconds have
    passed (at once when [ms] is not positive). *)
Definition sleep (ms : Z) : Comp System unit :=
  emit (ev_sleep ms) ;;;
  fun s => (Returns tt,
            mkSystem (this s)
              (mkRuntime (clock (runtime s) + Z.max 0 ms)
                 (invocations (runtime s)) (events (runtime s)))).

Definition get_this : Comp System OpenAIService :=
  fun s => (Returns (this s), s).
Definition set_this (svc : OpenAIService) : Comp System unit :=
  fun s => (Returns tt, mkSystem svc (runtime s)).

(** The counter and the time stamp of one limit type. *)
Definition tokens_of (svc : OpenAIService) (type : LimitType) : Z :=
  match type with
  | COMPLETIONS => completionsTokens svc
  | EMBEDDINGS => embeddingsTokens svc
  end.
Definition lastTime_of (svc : OpenAIService) (type : LimitType) : Z :=
  match type with
  | COMPLETIONS => lastCompletionTime svc
  | EMBEDDINGS => lastEmbeddingTime svc
  end.
Definition set_tokens (svc : OpenAIService) (type : LimitType) (n : Z) : OpenAIService :=
  match type with
  | COMPLETIONS =>
      mkService (maxRetries svc) n (embeddingsTokens svc)
        (lastCompletionTime svc) (lastEmbeddingTime svc)
  | EMBEDDINGS =>
      mkService (maxRetries svc) (completionsTokens svc) n
        (lastCompletionTime svc) (lastEmbeddingTime svc)
  end.
Definition set_lastTime (svc : OpenAIService) (type : LimitType) (t : Z) : OpenAIService :=
  match type with
  | COMPLETIONS =>
      mkService (maxRetries svc) (completionsTokens svc) (embeddingsTokens svc)
        t (lastEmbeddingTime svc)
  | EMBEDDINGS =>
      mkService (maxRetries svc) (completionsTokens svc) (embeddingsTokens svc)
        (lastCompletionTime svc) t
  end.

(** [this.completionsTokens = 0] or [this.embeddingsTokens = 0] *)
Definition reset_tokens (type : LimitType) : Comp System unit :=
  svc <- get_this ;; set_this (set_tokens svc type 0).

(** [private async handleRateLimit(type, tokens)]. [lastTime] and
    [tokenCount] are locals read once at entry: the comparison with the
    limit uses the count read before the one-minute reset. *)
Definition handleRateLimit (type : LimitType) (tokens : Z) : Comp System unit :=
  emit (ev_rate_limit type tokens) ;;;
  now <- Date_now ;;
  svc <- get_this ;;
  let limit := TOKENS_PER_MINUTE type in
  let lastTime := lastTime_of svc type in
  let tokenCount := tokens_of svc type in
  (if (60000 <=? now - lastTime)%Z then reset_tokens type else ret tt) ;;;
  (if (limit <? tokenCount + tokens)%Z
   then
     let waitTime := 60000 - (now - lastTime) in
     sleep waitTime ;;;
     reset_tokens type
   else ret tt) ;;;
  svc <- get_this ;;
  set_this (set_lastTime (set_tokens svc type (tokens_of svc type + tokens)) type now).

(** The delay computed in the [catch] block of the retry loop. *)
Definition retry_delay (retryCount : nat) : Z :=
  Z.min (INITIAL_RETRY_DELAY * BACKOFF_FACTOR ^ Z.of_nat retryCount) MAX_RETRY_DELAY.

(** [retryCount >= this.maxRetries]; a comparison with [NaN] is false. *)
Definition retries_exhausted (retryCount : nat) (maxRetries : JsNumber) : bool :=
  match maxRetries with
  | Finite q => Qle_bool q (inject_Z (Z.of_nat retryCount))
  | NegInfinity => true
  | PosInfinity | NaN => false
  end.

(** [retryCount + 1]. The sum of doubles is exact while the count is
    below 2^53; at 2^53 it rounds back to 2^53. *)
Definition next_retryCount (retryCount : nat) : nat :=
  if (Z.of_nat retryCount <? 2 ^ 53)%Z then S retryCount else retryCount.

(** [await operation()]: the wrapped operation is a closure over the
    remote service; [operation n] is what its [n]-th invocation does. *)
Definition invoke {T} (operation : nat -> Outcome T) : Comp System T :=
  fun s =>
    let n := invocations (runtime s) in
    (operation n,
     mkSystem (this s)
       (mkRuntime (clock (runtime s)) (S n) (events (runtime s) ++ [ev_invoke n]))).

(** What is known of a call once it has been followed for a while: it has
    settled, by returning or by throwing, or it is still retrying. *)
Inductive Run (T : Type) : Type :=
  | Settled (o : Outcome T)
  | Retrying.
Arguments Settled {T} o.
Arguments Retrying {T}.

(** [private async retryWithExponentialBackoff(operation, retryCount = 0)].
    The method calls itself until an attempt succeeds or
    [retryCount >= this.maxRetries], which need not happen (take
    [maxRetries] to be [Infinity] and an operation that keeps failing).
    The run is followed for at most [attempts] invocations of the
    operation and is [Retrying] when these do not settle it. *)
Fixpoint retryWithExponentialBackoff {T} (attempts : nat)
    (operation : nat -> Outcome T) (retryCount : nat) (s : System)
    : Run T * System :=
  match attempts with
  | O => (Retrying, s)
  | S attempts =>
      match invoke operation s with
      | (Returns v, s) => (Settled (Returns v), s)
      | (Throws error, s) =>
          if retries_exhausted retryCount (maxRetries (this s))
          then (Settled (Throws error), s)
          else
            let delay := retry_delay retryCount in
            let s := snd (sleep delay s) in
            retryWithExponentialBackoff attempts operation
              (next_retryCount retryCount) s
      end
  end.

(** [private estimateTokens(text)]: [Math.ceil(text.length / 4)] *)
Definition estimateTokens (text : string) : Z :=
  (Z.of_nat (String.length text) + 3) / 4.

(** [await this.handleRateLimit(type, tokens); return
    this.retryWithExponentialBackoff(operation)], the body of the five
    request methods. *)
Definition limited_then_retried {T} (type : LimitType) (tokens : Z)
    (attempts : nat) (operation : nat -> Outcome T) (s : System)
    : Run T * System :=
  match handleRateLimit type tokens s with
  | (Returns _, s) => retryWithExponentialBackoff attempts operation 0 s
  | (Throws error, s) => (Settled (Throws error), s)
  end.

(** The request methods. In each, [api] is the closure handed to the
    retry loop: [api n] is what its [n]-th run does, the request to the
    remote service and the reading of the response (which can throw as
    well). *)

(** [async generateSummary(content)] *)
Definition generateSummary (attempts : nat) (content : string)
    (api : nat -> Outcome string) : System -> Run string * System :=
  let estimatedTokens := estimateTokens content + 100 in
  limited_then_retried COMPLETIONS estimatedTokens attempts api.

(** [async extractTags(content)] *)
Definition extractTags (attempts : nat) (content : string)
    (api : nat -> Outcome (list string)) : System -> Run (list string) * System :=
  let estimatedTokens := estimateTokens content + 100 in
  limited_then_retried COMPLETIONS estimatedTokens attempts api.

(** [async generateEmbedding(text)] *)
Definition generateEmbedding {T} (attempts : nat) (text : string)
    (api : nat -> Outcome T) : System -> Run T * System :=
  let estimatedTokens := estimateTokens text in
  limited_then_retried EMBEDDINGS estimatedTokens attempts api.

(** [async generateSummaryAndTags(content)] *)
Definition generateSummaryAndTags (attempts : nat) (content : string)
    (api : nat -> Outcome (string * list string))
    : System -> Run (string * list string) * System :=
  let estimatedTokens := estimateTokens content + 150 in
  limited_then_retried COMPLETIONS estimatedTokens attempts api.

(** [texts.reduce((sum, text) => sum + this.estimateTokens(text), 0)] *)
Definition totalEstimatedTokens (texts : list string) : Z :=
  foldl (fun sum text => sum + estimateTokens text) 0 texts.

(** [async generateBatchEmbeddings(texts)] *)
Definition generateBatchEmbeddings {T} (attempts : nat) (texts : list string)
    (api : nat -> Outcome T) : System -> Run T * System :=
  limited_then_retried EMBEDDINGS (totalEstimatedTokens texts) attempts api.

(** ** Driving a service *)

Definition outcome {R} (c : System -> R * System) (s : System) : R := fst (c s).
Definition after {R} (c : System -> R * System) (s : System) : System := snd (c s).

(** The events a computation adds to the log. *)
Definition new_events {R} (c : System -> R * System) (s : System) : list Event :=
  drop (length (events (runtime s))) (events (runtime (after c s))).

Definition is_rate_limit (e : Event) : bool :=
  match e with ev_rate_limit _ _ => true | _ => false end.
Definition is_invoke (e : Event) : bool :=
  match e with ev_invoke _ => true | _ => false end.

(** The delays slept, in order. *)
Fixpoint sleeps (l : list Event) : list Z :=
  match l with
  | [] => []
  | ev_sleep ms :: l => ms :: sleeps l
  | _ :: l => sleeps l
  end.

(** Every invocation of the operation is preceded by a rate-limit check of
    its own: [checked] tells whether a check has been seen since the last
    invocation. *)
Fixpoint each_attempt_checked (checked : bool) (l : list Event) : bool :=
  match l with
  | [] => true
  | ev_rate_limit _ _ :: l => each_attempt_checked true l
  | ev_invoke _ :: l => checked && each_attempt_checked false l
  | ev_sleep _ :: l => each_attempt_checked checked l
  end.

(** The events a call adds begin with a rate-limit check, for [tokens]
    tokens of [type], and hold no other. *)
Definition checked_once (type : LimitType) (tokens : Z) (l : list Event) : Prop :=
  exists rest,
    l = ev_rate_limit type tokens :: rest
    /\ Forall (fun e => is_rate_limit e = false) rest.

(** The value of [retryCount] in the call that makes attempt number [j]
    (counted from 0) of a run started with [retryCount = 0]. *)
Definition retryCount_at (j : nat) : nat := Nat.iter j next_retryCount 0%nat.
Arguments retryCount_at : simpl never.

(** The number of retries after which the loop gives up: the number [n]
    of the first attempt at which [retryCount >= this.maxRetries] holds.
    There is none when [maxRetries] is [Infinity], and none beyond 2^53,
    where [retryCount] stops growing. *)
Definition retry_limit (maxRetries : JsNumber) : option nat :=
  match maxRetries with
  | Finite q =>
      let n := Z.max 0 (Qceiling q) in
      if (n <=? 2 ^ 53)%Z then Some (Z.to_nat n) else None
  | NegInfinity => Some 0%nat
  | PosInfinity | NaN => None
  end.

(** The service does not give up before it has made [k] retries. *)
Definition allows_retries (svc : OpenAIService) (k : nat) : Prop :=
  match retry_limit (maxRetries svc) with
  | Some n => (k <= n)%nat
  | None => True
  end.

(** The events of [k] failed attempts followed by a last attempt, in a
    run started with [retryCount = 0], from its attempt number [j] on,
    when [i] invocations were made before. *)
Fixpoint backoff_events (i j k : nat) : list Event :=
  match k with
  | O => [ev_invoke i]
  | S k =>
      ev_invoke i :: ev_sleep (retry_delay (retryCount_at j))
        :: backoff_events (S i) (S j) k
  end.

(** Both counters are within their per-minute budget. *)
Definition within_budget (svc : OpenAIService) : Prop :=
  forall type : LimitType, 0 <= tokens_of svc type <= TOKENS_PER_MINUTE type.

(** A request reaching the limiter when the clock reads [req_now]. *)
Record Request : Type := mkRequest {
  req_now : Z;
  req_type : LimitType;
  req_tokens : Z
}.

Definition at_time (now : Z) (s : System) : System :=
  mkSystem (this s)
    (mkRuntime now (invocations (runtime s)) (events (runtime s))).

Definition serve (r : Request) (s : System) : System :=
  after (handleRateLimit (req_type r) (req_tokens r)) (at_time (req_now r) s).

Fixpoint serve_all (rs : list Request) (s : System) : System :=
  match rs with
  | [] => s
  | r :: rs => serve_all rs (serve r s)
  end.

Definition affordable (r : Request) : Prop :=
  0 <= req_tokens r <= TOKENS_PER_MINUTE (req_type r).

(** Three requests, the last two of which have to wait. *)
Definition sample_requests : list Request :=
  [ mkRequest 0 COMPLETIONS 60000;
    mkRequest 1000 COMPLETIONS 60000;
    mkRequest 2000 EMBEDDINGS 150000;
    mkRequest 3000 COMPLETIONS 90000 ].

(** A service just constructed, at clock reading [now]. *)
Definition boot (config_maxRetries : option JsNumber) (now : Z) : System :=
  mkSystem (new_OpenAIService config_maxRetries) (mkRuntime now 0 []).

(** An operation that the remote service keeps rejecting. *)
Definition always_failing (n : nat) : Outcome string :=
  Throws (Error ("429 Too Many Requests, attempt " +:+ pretty n)).

(** A request that is rejected once and then served. *)
Definition failing_once (n : nat) : Outcome string :=
  match n with
  | O => Throws (Error "503 Service Unavailable")
  | S _ => Returns "A short summary."
  end.

(** Requests that each arrive less than a minute after the one before
    (the first, less than a minute after the service was constructed). *)
Definition steady_requests : list Request :=
  [ mkRequest 50000 COMPLETIONS 20000;
    mkRequest 100000 COMPLETIONS 30000;
    mkRequest 150000 COMPLETIONS 40000 ].

(** An operation that succeeds on its third attempt. *)
Definition failing_twice (n : nat) : Outcome string :=
  match n with
  | O | S O => Throws (Error "503 Service Unavailable")
  | S (S _) => Returns "A short summary."
  end.

(** Requests of one type, each arriving less than a minute after the one
    before it ([last] is the time of the call before the first). *)
Fixpoint steady (type : LimitType) (last : Z) (rs : list Request) : Prop :=
  match rs with
  | [] => True
  | r :: rs =>
      req_type r = type /\ 0 <= req_tokens r /\ req_now r - last < 60000
      /\ steady type (req_now r) rs
  end.

(** The cost of a list of requests. *)
Definition total_tokens (rs : list Request) : Z :=
  foldr (fun r sum => req_tokens r + sum) 0 rs.

(** ** Requests leaving the limiter *)

(** A request leaves the limiter, and goes on to the remote service, when
    [handleRateLimit] returns. [releases rs s] lists the requests [rs],
    made one after the other from [s], each with the clock reading at
    which it leaves. *)
Fixpoint releases (rs : list Request) (s : System) : list (Z * Request) :=
  match rs with
  | [] => []
  | r :: rs => (clock (runtime (serve r s)), r) :: releases rs (serve r s)
  end.

(** The tokens of [type] that leave the limiter during the minute that
    starts at [from]. *)
Definition released_in_minute (type : LimitType) (from : Z)
    (l : list (Z * Request)) : Z :=
  foldr
    (fun '(t, r) sum =>
       if bool_decide (req_type r = type)
          && (from <=? t)%Z && (t <? from + 60000)%Z
       then req_tokens r + sum else sum)
    0 l.

(** Each request is made after the one before it has left the limiter. *)
Fixpoint one_at_a_time (rs : list Request) (s : System) : Prop :=
  match rs with
  | [] => True
  | r :: rs =>
      clock (runtime s) <= req_now r /\ one_at_a_time rs (serve r s)
  end.

(** Three completion requests of 90000 tokens each, the second made one
    second and the third 61 seconds after the first, which is made at
    [start]. *)
Definition burst (start : Z) : list Request :=
  [ mkRequest start COMPLETIONS 90000;
    mkRequest (start + 1000) COMPLETIONS 90000;
    mkRequest (start + 61000) COMPLETIONS 90000 ].

End OpenAI.

(** * Properties of the checkpoint manager *)

Module CheckpointProofs.
Import Checkpoint.

(** Unfold a method of the manager down to the platform calls. *)
Ltac run_method :=
  unfold outcome, after, document, progress_of, perform,
    startStage, updateNoteProgress, completeStage, failStage,
    getStageProgress, getStageProgressPercentage, getNextNoteForStage,
    isStageComplete, getMetadata, saveMetadata, require_metadata,
    get_metadata, set_metadata, get_world, io, writeJSON, fs_writeFile,
    new_Date_toISOString, bind, try_catch, ret, throw in *;
  simpl in *.

(** Fix the manager's field of a system to the given hypothesis. *)
Ltac open_system s H :=
  destruct s as [[?] ?]; unfold document in H; simpl in H; subst.

(** Evaluate the document of a concrete system. *)
Ltac compute_document :=
  match goal with
  | |- context [document ?s] =>
      let d := eval vm_compute in (document s) in
      let E := fresh "E" in
      assert (E : document s = d) by (vm_compute; reflexivity);
      rewrite E; clear E
  end.

(** Refute membership of a string in a list of other strings. *)
Ltac refute_elem H :=
  repeat (apply elem_of_cons in H as [H|H]; [discriminate H|]);
  inversion H.

Lemma stage_get_set_eq st stage p : stage_get (stage_set st stage p) stage = p.
Proof. by destruct stage. Qed.

Lemma stage_get_set_ne st stage stage' p :
  stage <> stage' -> stage_get (stage_set st stage p) stage' = stage_get st stage'.
Proof. by destruct stage, stage'. Qed.

Lemma stage_get_set st stage stage' p :
  stage_get (stage_set st stage p) stage' =
  if decide (stage = stage') then p else stage_get st stage'.
Proof.
  case_decide as E; [subst; apply stage_get_set_eq | by apply stage_get_set_ne].
Qed.

Lemma includes_true l x : includes l x = true <-> x ∈ l.
Proof. unfold includes. apply bool_decide_eq_true. Qed.

Lemma includes_false l x : includes l x = false <-> x ∉ l.
Proof. unfold includes. apply bool_decide_eq_false. Qed.

(** *** What each mutating method leaves in the manager *)

Lemma saveMetadata_run s m :
  document s = Some m ->
  saveMetadata s =
    (Throws save_error,
     mkSystem
       (mkManager (Some (set_lastUpdated m (wall (world s) (reads (world s))))))
       (logged
          (call_writeFile
             (JDoc (set_lastUpdated m (wall (world s) (reads (world s)))))
             (Stringified (JStr (CHECKPOINT_FULL_PATH (world s))) true))
          (mkWorld (files (world s)) (dirs (world s)) (wall (world s))
             (S (reads (world s))) (cwd (world s)) (fslog (world s))))).
Proof. intros H. open_system s H. by run_method. Qed.

Lemma startStage_document s m stage :
  document s = Some m ->
  exists now updated,
    document (after (startStage stage) s) =
    Some (if bool_decide (status (stage_get (stages m) stage) = IN_PROGRESS)
          then m
          else
            let p := stage_get (stages m) stage in
            set_lastUpdated
              (update_stage m stage
                 (mkStageProgress IN_PROGRESS (processedNoteIds p) (failedNoteIds p)
                    (Some now) (completionTime p) (lastProcessedTime p) None))
              updated).
Proof.
  intros H. open_system s H. run_method.
  case_bool_decide; simpl; [by exists EmptyString, EmptyString | eauto].
Qed.

Lemma updateNoteProgress_document s m stage noteId success :
  document s = Some m ->
  exists now updated,
    document (after (updateNoteProgress stage noteId success) s) =
    Some (set_lastUpdated
            (update_stage m stage
               (set_lastProcessedTime
                  (record_note (stage_get (stages m) stage) noteId success) now))
            updated).
Proof. intros H. open_system s H. run_method. eauto. Qed.

Lemma completeStage_document s m stage :
  document s = Some m ->
  exists now updated,
    document (after (completeStage stage) s) =
    Some (let p := stage_get (stages m) stage in
          set_lastUpdated
            (update_stage m stage
               (mkStageProgress COMPLETED (processedNoteIds p) (failedNoteIds p)
                  (startTime p) (Some now) (lastProcessedTime p) (error p)))
            updated).
Proof. intros H. open_system s H. run_method. eauto. Qed.

Lemma failStage_document s m stage msg :
  document s = Some m ->
  exists updated,
    document (after (failStage stage msg) s) =
    Some (let p := stage_get (stages m) stage in
          set_lastUpdated
            (update_stage m stage
               (mkStageProgress FAILED (processedNoteIds p) (failedNoteIds p)
                  (startTime p) (completionTime p) (lastProcessedTime p) (Some msg)))
            updated).
Proof. intros H. open_system s H. run_method. eauto. Qed.

(** A manager without a document stays without one. *)
Lemma perform_null c s : document s = None -> after (perform c) s = s.
Proof. intros H. open_system s H. destruct c; by run_method. Qed.

(** *** The scan for the next note *)

Lemma unsettled_test p i :
  negb (includes (processedNoteIds p) (toString i))
  && negb (includes (failedNoteIds p) (toString i)) = true <-> ~ settled p i.
Proof.
  unfold settled.
  rewrite andb_true_iff, !negb_true_iff, !includes_false. tauto.
Qed.

Lemma first_unsettled_None p l :
  first_unsettled p l = None <-> forall i, i ∈ l -> settled p i.
Proof.
  induction l as [|i l IH]; simpl.
  - split; [intros _ i Hi; inversion Hi | done].
  - destruct (negb _ && negb _) eqn:E.
    + apply unsettled_test in E. split; [done|].
      intros H. destruct E. apply H. left.
    + rewrite IH. split.
      * intros H j Hj. apply elem_of_cons in Hj as [->|Hj]; [|by apply H].
        destruct (decide (settled p i)) as [|N]; [done|].
        apply unsettled_test in N. congruence.
      * intros H j Hj. apply H. by right.
Qed.

Lemma first_unsettled_Some p l id :
  first_unsettled p l = Some id <->
  exists k i, l !! k = Some i /\ id = toString i /\ ~ settled p i /\
    forall j i', l !! j = Some i' -> (j < k)%nat -> settled p i'.
Proof.
  induction l as [|i l IH]; simpl.
  - split; [done|]. by intros (k & i & Hk & _).
  - destruct (negb _ && negb _) eqn:E.
    + apply unsettled_test in E. split.
      * intros [= <-]. exists 0%nat, i. split_and!; [done..|]. intros; lia.
      * intros (k & i' & Hk & -> & Hi' & Hlow).
        destruct k as [|k]; simpl in Hk; [by simplify_eq|].
        destruct E. apply (Hlow 0%nat i); [done|lia].
    + rewrite IH. split.
      * intros (k & i' & Hk & -> & Hi' & Hlow).
        exists (S k), i'. split_and!; [done..|].
        intros [|j] i'' Hj Hlt; simpl in Hj.
        -- simplify_eq. destruct (decide (settled p i'')) as [|N]; [done|].
           apply unsettled_test in N. congruence.
        -- apply (Hlow j); [done|lia].
      * intros (k & i' & Hk & -> & Hi' & Hlow).
        destruct k as [|k]; simpl in Hk.
        -- simplify_eq. apply unsettled_test in Hi'. congruence.
        -- exists k, i'. split_and!; [done..|].
           intros j i'' Hj Hlt. apply (Hlow (S j)); [done|lia].
Qed.

(** The scan over [0 .. n-1] finds the lowest unsettled index. *)
Lemma first_unsettled_seqZ_Some p n id :
  first_unsettled p (seqZ 0 n) = Some id <->
  exists i, 0 <= i < n /\ id = toString i /\ ~ settled p i /\
    forall j, 0 <= j < i -> settled p j.
Proof.
  rewrite first_unsettled_Some. split.
  - intros (k & i & Hk & -> & Hi & Hlow).
    apply lookup_seqZ in Hk as [-> Hk].
    exists (0 + Z.of_nat k). split_and!; [lia|lia|done|done|].
    intros j Hj. apply (Hlow (Z.to_nat j)); [|lia].
    apply lookup_seqZ. lia.
  - intros (i & Hi & -> & Hun & Hlow).
    exists (Z.to_nat i), i. split_and!; [apply lookup_seqZ; lia|done|done|].
    intros j i' Hj Hlt. apply lookup_seqZ in Hj as [-> Hj]. apply Hlow. lia.
Qed.

Lemma first_unsettled_seqZ_None p n :
  first_unsettled p (seqZ 0 n) = None <-> forall i, 0 <= i < n -> settled p i.
Proof.
  rewrite first_unsettled_None. split.
  - intros H i Hi. apply H, elem_of_seqZ. lia.
  - intros H i Hi. apply H. apply elem_of_seqZ in Hi. lia.
Qed.

(** C2. On an initialised manager [getNextNoteForStage(stage)] returns,
    without changing anything, the decimal string of the smallest index
    [i] in [0 .. totalNotes-1] whose string is in neither
    [processedNoteIds] nor [failedNoteIds], and [null] exactly when every
    such index is settled; with three notes, ["0"] processed and ["1"]
    failed it returns ["2"]. *)
Theorem getNextNoteForStage_lowest_unsettled s m stage :
  document s = Some m ->
  let p := stage_get (stages m) stage in
  let n := totalNotes m in
  exists r,
    getNextNoteForStage stage s = (Returns r, s) /\
    (forall id, r = Some id <->
       exists i, 0 <= i < n /\ id = toString i /\ ~ settled p i /\
         forall j, 0 <= j < i -> settled p j) /\
    (r = None <-> forall i, 0 <= i < n -> settled p i) /\
    (n = 3 -> processedNoteIds p = ["0"] -> failedNoteIds p = ["1"] ->
     r = Some "2").
Proof.
  intros H p n. open_system s H.
  exists (first_unsettled p (seqZ 0 n)). split_and!.
  - by run_method.
  - intros id. apply first_unsettled_seqZ_Some.
  - apply first_unsettled_seqZ_None.
  - intros -> Hp Hf. unfold seqZ; simpl. unfold includes.
    rewrite Hp, Hf. reflexivity.
Qed.

Lemma getNextNoteForStage_lowest_unsettled_witness :
  outcome (getNextNoteForStage RAW_EXPORT) scenario_system = Returns (Some "2").
Proof.
  destruct (document scenario_system) as [m|] eqn:Hm; [|by vm_compute in Hm].
  destruct (getNextNoteForStage_lowest_unsettled scenario_system m RAW_EXPORT Hm)
    as (r & Hrun & _ & _ & Hr).
  unfold outcome. rewrite Hrun. simpl. f_equal.
  vm_compute in Hm. injection Hm as <-. by apply Hr.
Defined.

(** *** Processed and failed ids *)

Lemma settled_disjoint_update m stage p updated :
  settled_disjoint m ->
  processedNoteIds p ## failedNoteIds p ->
  settled_disjoint (set_lastUpdated (update_stage m stage p) updated).
Proof.
  intros Hm Hp stage'. simpl. rewrite stage_get_set.
  case_decide; [done | apply Hm].
Qed.

Lemma record_note_disjoint p noteId (success : bool) :
  processedNoteIds p ## failedNoteIds p ->
  (if success then noteId ∉ failedNoteIds p else noteId ∉ processedNoteIds p) ->
  processedNoteIds (record_note p noteId success)
  ## failedNoteIds (record_note p noteId success).
Proof.
  intros Hp Hid. unfold record_note, push.
  destruct success; destruct (negb _); simpl; try done.
  - intros x [Hx | ->%list_elem_of_singleton]%elem_of_app Hf; [by apply (Hp x)|done].
  - intros x Hx [Hf | ->%list_elem_of_singleton]%elem_of_app; [by apply (Hp x)|done].
Qed.

Lemma perform_disjoint c s :
  stages_disjoint s -> ~ contradicts c s -> stages_disjoint (after (perform c) s).
Proof.
  unfold stages_disjoint, contradicts.
  destruct (document s) as [m|] eqn:Hdoc; [|by rewrite perform_null, Hdoc].
  intros Hm Hc. destruct c as [stage|stage noteId success|stage|stage msg]; simpl.
  - destruct (startStage_document s m stage Hdoc) as (now & updated & ->).
    case_bool_decide; [done|]. by apply settled_disjoint_update, Hm.
  - destruct (updateNoteProgress_document s m stage noteId success Hdoc)
      as (now & updated & ->).
    apply settled_disjoint_update; [done|]. simpl.
    apply record_note_disjoint; [apply Hm|]. by destruct success.
  - destruct (completeStage_document s m stage Hdoc) as (now & updated & ->).
    by apply settled_disjoint_update, Hm.
  - destruct (failStage_document s m stage msg Hdoc) as (updated & ->).
    by apply settled_disjoint_update, Hm.
Qed.

(** The document [initialize] creates when there is no checkpoint file
    has empty sets in every stage. *)
Lemma fresh_document_disjoint n created updated :
  settled_disjoint
    (mkCheckpointMetadata "1.0.0" n
       (mkStages fresh_stage fresh_stage fresh_stage fresh_stage) created updated).
Proof. intros stage x Hx. destruct stage; inversion Hx. Qed.

(** C1, as the code has it. From a manager whose stages keep processed and
    failed ids apart (as a newly created checkpoint does), every sequence
    of [startStage], [updateNoteProgress], [completeStage] and [failStage]
    calls in which no [updateNoteProgress] reports an id with the outcome
    opposite to the one already recorded for it leaves the two sets of
    every stage disjoint. *)
Theorem consistent_calls_keep_sets_disjoint cs s :
  stages_disjoint s -> consistent cs s -> stages_disjoint (perform_all cs s).
Proof.
  revert s. induction cs as [|c cs IH]; intros s Hs Hcs; simpl; [done|].
  destruct Hcs as [Hc Hcs]. apply IH; [by apply perform_disjoint | done].
Qed.

Lemma consistent_calls_keep_sets_disjoint_witness :
  stages_disjoint
    (perform_all disjoint_calls (after (initialize 3) (boot empty_world))).
Proof.
  apply consistent_calls_keep_sets_disjoint.
  - unfold stages_disjoint. compute_document.
    intros stage x Hx. destruct stage; inversion Hx.
  - apply (bool_decide_unpack _). vm_compute. exact I.
Defined.

(** C1 as stated fails: after [updateNoteProgress(stage, id, false)] and
    then [updateNoteProgress(stage, id, true)] the id is in both sets. *)
Lemma fail_then_succeed_in_both_sets :
  ~ stages_disjoint
      (perform_all
         [ do_updateNoteProgress RAW_EXPORT "0" false;
           do_updateNoteProgress RAW_EXPORT "0" true ]
         (after (initialize 1) (boot empty_world))).
Proof.
  unfold stages_disjoint. compute_document. intros H.
  apply (H RAW_EXPORT "0"); simpl; apply list_elem_of_singleton; reflexivity.
Qed.

(** *** Stage status *)

Lemma status_record_note p noteId success :
  status (record_note p noteId success) = status p.
Proof. unfold record_note. by destruct success, (negb _). Qed.

Lemma status_of_Some s stage st :
  status_of s stage = Some st ->
  exists m, document s = Some m /\ status (stage_get (stages m) stage) = st.
Proof.
  unfold status_of, progress_of. destruct (document s) as [m|]; simpl; [|done].
  intros [= <-]. eauto.
Qed.

(** C9, as the code has it. Once a stage is [COMPLETED],
    [updateNoteProgress] and [completeStage] (on any stage) and
    [startStage] and [failStage] on the other stages leave it
    [COMPLETED]; [startStage] on the stage itself sets it to
    [IN_PROGRESS] and [failStage] on it sets it to [FAILED]. *)
Theorem completed_stage_transitions s stage :
  status_of s stage = Some COMPLETED ->
  (forall stage' noteId success,
     status_of (after (updateNoteProgress stage' noteId success) s) stage
     = Some COMPLETED) /\
  (forall stage', status_of (after (completeStage stage') s) stage = Some COMPLETED) /\
  (forall stage', stage' <> stage ->
     status_of (after (startStage stage') s) stage = Some COMPLETED) /\
  (forall stage' msg, stage' <> stage ->
     status_of (after (failStage stage' msg) s) stage = Some COMPLETED) /\
  status_of (after (startStage stage) s) stage = Some IN_PROGRESS /\
  (forall msg, status_of (after (failStage stage msg) s) stage = Some FAILED).
Proof.
  intros (m & Hdoc & Hst)%status_of_Some. unfold status_of, progress_of.
  split_and!.
  - intros stage' noteId success.
    destruct (updateNoteProgress_document s m stage' noteId success Hdoc)
      as (now & updated & ->).
    simpl. rewrite stage_get_set. case_decide; subst; simpl; [|by rewrite Hst].
    by rewrite status_record_note, Hst.
  - intros stage'.
    destruct (completeStage_document s m stage' Hdoc) as (now & updated & ->).
    simpl. rewrite stage_get_set. case_decide; subst; simpl; by rewrite ?Hst.
  - intros stage' Hne.
    destruct (startStage_document s m stage' Hdoc) as (now & updated & ->).
    case_bool_decide; simpl; [by rewrite Hst|].
    rewrite stage_get_set_ne by done. by rewrite Hst.
  - intros stage' msg Hne.
    destruct (failStage_document s m stage' msg Hdoc) as (updated & ->).
    simpl. rewrite stage_get_set_ne by done. by rewrite Hst.
  - destruct (startStage_document s m stage Hdoc) as (now & updated & ->).
    rewrite Hst. simpl. by rewrite stage_get_set_eq.
  - intros msg.
    destruct (failStage_document s m stage msg Hdoc) as (updated & ->).
    simpl. by rewrite stage_get_set_eq.
Qed.

Lemma completed_stage_transitions_witness :
  status_of (after (completeStage ENRICHMENT) completed_system) RAW_EXPORT
  = Some COMPLETED
  /\ status_of (after (startStage RAW_EXPORT) completed_system) RAW_EXPORT
     = Some IN_PROGRESS.
Proof.
  assert (H : status_of completed_system RAW_EXPORT = Some COMPLETED)
    by (vm_compute; reflexivity).
  destruct (completed_stage_transitions completed_system RAW_EXPORT H)
    as (_ & Hc & _ & _ & Hs & _).
  split; [apply Hc | apply Hs].
Defined.

(** C9 as stated fails: [startStage] takes a [COMPLETED] stage back to
    [IN_PROGRESS]. *)
Lemma startStage_reopens_completed_stage :
  status_of completed_system RAW_EXPORT = Some COMPLETED
  /\ status_of (after (startStage RAW_EXPORT) completed_system) RAW_EXPORT
     <> Some COMPLETED.
Proof. split; [vm_compute; reflexivity|]. vm_compute. discriminate. Qed.

(** *** The guard on the document *)

(** C10, as the code has it. While the manager holds no document (as a
    newly constructed one does), every public method other than
    [initialize] throws ['Checkpoint metadata not initialized'] and leaves
    the manager, the files and the log of file-system calls as they
    were. *)
Theorem methods_require_document s :
  document s = None ->
  (forall stage, startStage stage s = (Throws not_initialized, s)) /\
  (forall stage noteId success,
     updateNoteProgress stage noteId success s = (Throws not_initialized, s)) /\
  (forall stage, completeStage stage s = (Throws not_initialized, s)) /\
  (forall stage msg, failStage stage msg s = (Throws not_initialized, s)) /\
  (forall stage, getStageProgress stage s = (Throws not_initialized, s)) /\
  (forall stage, getStageProgressPercentage stage s = (Throws not_initialized, s)) /\
  (forall stage, getNextNoteForStage stage s = (Throws not_initialized, s)) /\
  (forall stage, isStageComplete stage s = (Throws not_initialized, s)) /\
  getMetadata s = (Throws not_initialized, s).
Proof. intros H. open_system s H. split_and!; intros; by run_method. Qed.

Lemma methods_require_document_witness :
  startStage RAW_EXPORT (boot empty_world)
  = (Throws not_initialized, boot empty_world)
  /\ getNextNoteForStage RAW_EXPORT (boot empty_world)
     = (Throws not_initialized, boot empty_world).
Proof.
  destruct (methods_require_document (boot empty_world) eq_refl)
    as (Hs & _ & _ & _ & _ & _ & Hn & _).
  split; [apply Hs | apply Hn].
Defined.

(** C10 as stated fails: on an empty disk [initialize] throws, having
    already assigned the document, and the methods called next do not
    throw the guard's error. *)
Lemma failed_initialize_disarms_guard :
  let s := after (initialize 3) (boot empty_world) in
  threw (outcome (initialize 3) (boot empty_world)) = true
  /\ outcome (getNextNoteForStage RAW_EXPORT) s = Returns (Some "0")
  /\ outcome (startStage RAW_EXPORT) s <> Throws not_initialized
  /\ status_of (after (startStage RAW_EXPORT) s) RAW_EXPORT <> status_of s RAW_EXPORT.
Proof.
  split_and!; [vm_compute; reflexivity | vm_compute; reflexivity | |];
    vm_compute; discriminate.
Qed.

(** *** Persistence *)

(** What [saveMetadata] does on the disk: one [writeFile] call, whose
    [file] argument is the document and whose data is the JSON text of
    the checkpoint path; the call is rejected and no file changes. *)
Lemma saveMetadata_fs_calls s m :
  document s = Some m ->
  outcome saveMetadata s = Throws save_error /\
  (exists d, new_fs_calls saveMetadata s =
     [ call_writeFile (JDoc d)
         (Stringified (JStr (CHECKPOINT_FULL_PATH (world s))) true) ]) /\
  files (world (after saveMetadata s)) = files (world s).
Proof.
  intros H. unfold new_fs_calls. unfold outcome, after.
  rewrite (saveMetadata_run s m H).
  cbn [fst snd world fslog files logged]. split_and!; [done| |done].
  eexists. by rewrite drop_app_length.
Qed.

Lemma writable_logged c w path : writable (logged c w) path = writable w path.
Proof. reflexivity. Qed.

(** Writing one file leaves every path writable that was so before. *)
Lemma writable_set_files w path path' data :
  writable w path = true ->
  writable (set_files w (<[path' := data]> (files w))) path = true.
Proof.
  unfold writable. simpl. intros [H|H]%orb_true_iff; apply orb_true_iff.
  - left. apply bool_decide_eq_true. apply bool_decide_eq_true in H.
    destruct (decide (path' = path)) as [->|Hne].
    + rewrite lookup_insert_eq. eauto.
    + by rewrite lookup_insert_ne.
  - by right.
Qed.

(** [writeJSON] called as its signature asks, for a path that can be
    written, writes the destination file itself, in one [writeFile]. *)
Lemma writeJSON_fs_calls data filePath indented w :
  writable w filePath = true ->
  writeJSON data (JStr filePath) indented w
  = (Returns tt,
     set_files (logged (call_writeFile (JStr filePath) (Stringified data indented)) w)
       (<[filePath := Stringified data indented]> (files w))).
Proof.
  intros H. unfold writeJSON, fs_writeFile, try_catch, JSON_stringify.
  by rewrite writable_logged, H.
Qed.

(** The sibling helper [writeJSONSafe] does go through a temporary file
    and a rename. *)
Lemma writeJSONSafe_fs_calls data filePath w :
  writable w filePath = true ->
  writable w (filePath +:+ ".tmp") = true ->
  let '(o, w') := writeJSONSafe data filePath w in
  o = Returns tt /\
  fslog w' = (fslog w ++
    [ call_writeFile (JStr (filePath +:+ ".tmp")) (Stringified data true);
      call_rename (filePath +:+ ".tmp") filePath ])%list /\
  files w' !! filePath = Some (Stringified data true).
Proof.
  intros Hpath Htmp. unfold writeJSONSafe, bind, try_catch.
  rewrite writeJSON_fs_calls by done. unfold fs_rename.
  set (w1 := set_files _ _).
  assert (writable (logged (call_rename (filePath +:+ ".tmp") filePath) w1) filePath
          = true) as ->.
  { rewrite writable_logged. by apply (writable_set_files (logged _ w)). }
  simpl. rewrite lookup_insert_eq. simpl. split_and!; [done| |].
  - by rewrite <- app_assoc.
  - by rewrite lookup_insert_eq.
Qed.

Lemma loaded_system_initialized :
  outcome (initialize 1) (boot stored_world) = Returns tt
  /\ document loaded_system = Some stored_document.
Proof. split; vm_compute; reflexivity. Qed.

(** C3, on the code: a save made by [startStage] on an initialised manager
    issues a single [writeFile], aimed at the document instead of a path,
    and no [rename]; the call throws and the checkpoint file keeps the
    document it held before, while the manager's copy has moved on. *)
Theorem save_writes_in_place_and_is_rejected :
  outcome (startStage RAW_EXPORT) loaded_system = Throws save_error
  /\ (exists d,
        document (after (startStage RAW_EXPORT) loaded_system) = Some d
        /\ status (stage_get (stages d) RAW_EXPORT) = IN_PROGRESS
        /\ new_fs_calls (startStage RAW_EXPORT) loaded_system =
           [ call_writeFile (JDoc d)
               (Stringified (JStr "/app/data/checkpoint.json") true) ])
  /\ files (world (after (startStage RAW_EXPORT) loaded_system))
       !! "/app/data/checkpoint.json"
     = Some (Stringified (JDoc stored_document) true)
  /\ status (stage_get (stages stored_document) RAW_EXPORT) = NOT_STARTED.
Proof.
  split_and!.
  - vm_compute. reflexivity.
  - eexists. split_and!; vm_compute; reflexivity.
  - vm_compute. reflexivity.
  - reflexivity.
Qed.

(** C8, on the code: recording again an id that is already in its target
    set leaves the set as it is and records [lastProcessedTime], but the
    call throws on its save and the checkpoint file is not updated. *)
Theorem repeated_update_throws_and_is_not_persisted :
  let s := after (updateNoteProgress RAW_EXPORT "0" true) loaded_system in
  let s' := after (updateNoteProgress RAW_EXPORT "0" true) s in
  processedNoteIds <$> progress_of s RAW_EXPORT = Some ["0"]
  /\ processedNoteIds <$> progress_of s' RAW_EXPORT = Some ["0"]
  /\ (lastProcessedTime <$> progress_of s' RAW_EXPORT)
     = Some (Some (sample_wall 2))
  /\ outcome (updateNoteProgress RAW_EXPORT "0" true) s = Throws save_error
  /\ files (world s') !! "/app/data/checkpoint.json"
     = Some (Stringified (JDoc stored_document) true)
  /\ processedNoteIds (stage_get (stages stored_document) RAW_EXPORT) = [].
Proof. split_and!; vm_compute; reflexivity. Qed.

(** The parts of C8 the code does provide, for every initialised manager:
    an id already in its target set leaves both sets as they are, and
    every call records [lastProcessedTime]. *)
Lemma record_note_idempotent p noteId (success : bool) :
  noteId ∈ (if success then processedNoteIds p else failedNoteIds p) ->
  record_note p noteId success = p.
Proof.
  intros H%includes_true. unfold record_note.
  destruct success; by rewrite H.
Qed.

Lemma updateNoteProgress_records_time s m stage noteId success :
  document s = Some m ->
  exists p,
    progress_of (after (updateNoteProgress stage noteId success) s) stage = Some p
    /\ is_Some (lastProcessedTime p)
    /\ processedNoteIds p
       = processedNoteIds (record_note (stage_get (stages m) stage) noteId success)
    /\ failedNoteIds p
       = failedNoteIds (record_note (stage_get (stages m) stage) noteId success).
Proof.
  intros H. unfold progress_of.
  destruct (updateNoteProgress_document s m stage noteId success H)
    as (now & updated & ->).
  simpl. rewrite stage_get_set_eq. eexists. split; [done|]. simpl. eauto.
Qed.

(** Every mutating method of an initialised manager ends in the failing
    save and leaves the files as they were. *)
Lemma perform_throws_unless_in_progress c s m :
  document s = Some m ->
  files (world (after (perform c) s)) = files (world s) /\
  (outcome (perform c) s = Throws save_error \/
   exists stage, c = do_startStage stage
                 /\ status (stage_get (stages m) stage) = IN_PROGRESS
                 /\ outcome (perform c) s = Returns tt).
Proof.
  intros H. open_system s H.
  destruct c as [stage| | |]; run_method; try by auto.
  case_bool_decide; simpl; [|by auto].
  split; [done|]. right. by exists stage.
Qed.

End CheckpointProofs.

(** * Properties of the rate limiter and the retry loop *)

Module OpenAIProofs.
Import OpenAI.

Ltac run_service :=
  unfold outcome, after, handleRateLimit, reset_tokens, sleep, emit, Date_now,
    get_this, set_this, invoke, bind, try_catch, ret, throw in *;
  simpl in *.

(** *** The backoff delays *)

Lemma retry_delay_formula k :
  retry_delay k = Z.min (1000 * 2 ^ Z.of_nat k) 8000.
Proof. reflexivity. Qed.

Lemma retry_delay_capped k : (3 <= k)%nat -> retry_delay k = 8000.
Proof.
  intros Hk. rewrite retry_delay_formula.
  assert (2 ^ 3 <= 2 ^ Z.of_nat k) by (apply Z.pow_le_mono_r; lia).
  lia.
Qed.

(** *** The retry counter *)

Lemma retryCount_at_S j : retryCount_at (S j) = next_retryCount (retryCount_at j).
Proof. reflexivity. Qed.

Lemma retryCount_at_Z j :
  Z.of_nat (retryCount_at j) = Z.min (Z.of_nat j) (2 ^ 53).
Proof.
  induction j as [|j IH]; [reflexivity|].
  rewrite retryCount_at_S. unfold next_retryCount.
  destruct (_ <? _)%Z eqn:E; [apply Z.ltb_lt in E | apply Z.ltb_ge in E]; lia.
Qed.

(** The delay is the one of the attempt number, also where the counter
    has stopped growing. *)
Lemma retry_delay_retryCount_at j : retry_delay (retryCount_at j) = retry_delay j.
Proof.
  pose proof (retryCount_at_Z j) as H.
  destruct (Z_le_gt_dec (Z.of_nat j) (2 ^ 53)).
  - f_equal. lia.
  - rewrite !retry_delay_capped; [done | lia | lia].
Qed.

(** [retry_limit] is the number of the first attempt at which the test
    [retryCount >= this.maxRetries] succeeds. *)
Lemma retries_exhausted_iff j maxRetries :
  retries_exhausted (retryCount_at j) maxRetries = true
  <-> exists n, retry_limit maxRetries = Some n /\ (n <= j)%nat.
Proof.
  pose proof (retryCount_at_Z j) as Hj.
  destruct maxRetries as [q| | |]; simpl.
  - rewrite Qle_bool_iff.
    assert ((q <= inject_Z (Z.of_nat (retryCount_at j)))%Q
            <-> Qceiling q <= Z.of_nat (retryCount_at j)) as ->.
    { split.
      - intros H%Qceiling_resp_le. by rewrite Qceiling_Z in H.
      - intros H. eapply Qle_trans; [apply Qle_ceiling|]. by rewrite <- Zle_Qle. }
    destruct (_ <=? _)%Z eqn:E; [apply Z.leb_le in E | apply Z.leb_gt in E].
    + split; [intros H; eexists; split; [done|lia] | intros (n & [= <-] & Hn); lia].
    + split; [lia | by intros (n & ? & _)].
  - split; [done | by intros (n & ? & _)].
  - split; [intros _; exists 0%nat; split; [done|lia] | done].
  - split; [done | by intros (n & ? & _)].
Qed.

Lemma retry_limit_first maxRetries n :
  retry_limit maxRetries = Some n <->
  retries_exhausted (retryCount_at n) maxRetries = true
  /\ forall j, (j < n)%nat -> retries_exhausted (retryCount_at j) maxRetries = false.
Proof.
  split.
  - intros H. split.
    + apply retries_exhausted_iff. eauto.
    + intros j Hj. apply not_true_is_false.
      intros (n' & Hn' & Hle)%retries_exhausted_iff. simplify_eq. lia.
  - intros [(n' & Hn' & Hle)%retries_exhausted_iff Hlow].
    destruct (decide (n' = n)) as [->|]; [done|].
    assert (retries_exhausted (retryCount_at n') maxRetries = true) as H
      by (apply retries_exhausted_iff; eauto).
    rewrite Hlow in H by lia. done.
Qed.

Lemma allows_retries_not_exhausted svc k j :
  allows_retries svc k -> (j < k)%nat ->
  retries_exhausted (retryCount_at j) (maxRetries svc) = false.
Proof.
  unfold allows_retries. intros Hk Hj. apply not_true_is_false.
  intros (n & Hn & Hle)%retries_exhausted_iff. rewrite Hn in Hk. lia.
Qed.

Lemma sleeps_app l1 l2 : sleeps (l1 ++ l2)%list = (sleeps l1 ++ sleeps l2)%list.
Proof.
  induction l1 as [|[] l1 IH]; simpl; [done|done| |done]. by rewrite IH.
Qed.


Lemma invokes_backoff_events i j k :
  length (filter (fun e => is_invoke e = true) (backoff_events i j k)) = S k.
Proof.
  revert i j. induction k as [|k IH]; intros i j; simpl; [done|].
  rewrite filter_cons_False by done. by rewrite IH.
Qed.

(** *** The retry loop *)

(** A run whose first [k] attempts fail without exhausting the retries,
    and whose next attempt either succeeds or is the one that exhausts
    them, settles with the outcome of that attempt after the events
    [backoff_events], when it is followed for more than [k] attempts. *)
Lemma retry_run_from {T} (operation : nat -> Outcome T) k :
  forall (attempts j : nat) s,
    (forall l, (l < k)%nat ->
       threw (operation (invocations (runtime s) + l)%nat) = true) ->
    (forall l, (l < k)%nat ->
       retries_exhausted (retryCount_at (j + l)) (maxRetries (this s)) = false) ->
    (retries_exhausted (retryCount_at (j + k)) (maxRetries (this s)) = true
     \/ threw (operation (invocations (runtime s) + k)%nat) = false) ->
    (k < attempts)%nat ->
    exists c,
      retryWithExponentialBackoff attempts operation (retryCount_at j) s =
      (Settled (operation (invocations (runtime s) + k)%nat),
       mkSystem (this s)
         (mkRuntime c (S (invocations (runtime s) + k))
            (events (runtime s)
             ++ backoff_events (invocations (runtime s)) j k))).
Proof.
  induction k as [|k IH]; intros attempts j [svc [c i evs]] Hfail Hmore Hlast Hatt;
    (destruct attempts as [|attempts]; [lia|]); simpl in *.
  - replace (i + 0)%nat with i in * by lia.
    replace (j + 0)%nat with j in * by lia.
    exists c. unfold invoke; simpl.
    destruct (operation i) as [v|e] eqn:Hop; simpl; [done|].
    destruct Hlast as [->|Hl]; done.
  - pose proof (Hfail 0%nat ltac:(lia)) as H0. rewrite Nat.add_0_r in H0.
    pose proof (Hmore 0%nat ltac:(lia)) as H1. rewrite Nat.add_0_r in H1.
    unfold invoke; simpl.
    destruct (operation i) as [v|e] eqn:Hop; [done|]. simpl. rewrite H1.
    rewrite <- retryCount_at_S.
    destruct (IH attempts (S j)
                (mkSystem svc
                   (mkRuntime (c + Z.max 0 (retry_delay (retryCount_at j))) (S i)
                      ((evs ++ [ev_invoke i])
                       ++ [ev_sleep (retry_delay (retryCount_at j))]))))
      as (c' & Hrun); simpl.
    + intros l Hl. replace (S (i + l)) with (i + S l)%nat by lia.
      apply Hfail. lia.
    + intros l Hl. replace (S (j + l)) with (j + S l)%nat by lia.
      apply Hmore. lia.
    + replace (S (i + k)) with (i + S k)%nat by lia.
      replace (S (j + k)) with (j + S k)%nat by lia. done.
    + lia.
    + exists c'. run_service. rewrite Hrun.
      replace (S (i + k)) with (i + S k)%nat by lia.
      by rewrite <- !app_assoc.
Qed.

Lemma retryWithExponentialBackoff_run {T} (operation : nat -> Outcome T)
    k attempts s :
  (forall j, (j < k)%nat ->
     threw (operation (invocations (runtime s) + j)%nat) = true) ->
  (retry_limit (maxRetries (this s)) = Some k
   \/ allows_retries (this s) k
      /\ threw (operation (invocations (runtime s) + k)%nat) = false) ->
  (k < attempts)%nat ->
  exists c,
    retryWithExponentialBackoff attempts operation 0 s =
    (Settled (operation (invocations (runtime s) + k)%nat),
     mkSystem (this s)
       (mkRuntime c (S (invocations (runtime s) + k))
          (events (runtime s) ++ backoff_events (invocations (runtime s)) 0 k))).
Proof.
  intros Hfail Hlast Hatt.
  assert (allows_retries (this s) k) as Hallow.
  { destruct Hlast as [H|[H _]]; [|done]. unfold allows_retries. by rewrite H. }
  apply (retry_run_from operation k attempts 0 s); [done| | |done].
  - intros l Hl. simpl. by apply allows_retries_not_exhausted with k.
  - simpl. destruct Hlast as [H|[_ H]]; [left | by right].
    apply retries_exhausted_iff. eauto.
Qed.



(** The loop from any point on: a run that has not given up by attempt
    number [j] makes at most [n - j] further retries when the limit is
    [n], and settles when it is followed for more attempts than that. *)
Lemma retry_bounds_from {T} (operation : nat -> Outcome T) n attempts :
  forall j s,
    retry_limit (maxRetries (this s)) = Some n ->
    let run := retryWithExponentialBackoff attempts operation (retryCount_at j) in
    (invocations (runtime s) <= invocations (runtime (after run s))
     <= invocations (runtime s) + S (n - j))%nat
    /\ 0 <= clock (runtime (after run s)) - clock (runtime s)
       <= 8000 * Z.of_nat (n - j)
    /\ ((n - j < attempts)%nat ->
        (invocations (runtime s) < invocations (runtime (after run s)))%nat
        /\ exists o, outcome run s = Settled o).
Proof.
  induction attempts as [|attempts IH]; intros j [svc [c i evs]] Hn; simpl in *.
  - unfold after, outcome; simpl. split_and!; [lia..|]. intros; lia.
  - unfold after, outcome, invoke; simpl.
    destruct (operation i) as [v|e]; simpl.
    { split_and!; [lia..|]. intros _. split; [lia | by eexists]. }
    destruct (retries_exhausted _ _) eqn:E; simpl.
    { split_and!; [lia..|]. intros _. split; [lia | by eexists]. }
    assert (j < n)%nat as Hj.
    { destruct (le_lt_dec n j) as [Hle|]; [|done].
      assert (retries_exhausted (retryCount_at j) (maxRetries svc) = true) as E'
        by (apply retries_exhausted_iff; eauto).
      congruence. }
    rewrite <- retryCount_at_S.
    match goal with
    | |- context [retryWithExponentialBackoff attempts operation _ ?s1] =>
        specialize (IH (S j) s1 Hn)
    end.
    unfold after, outcome in IH. run_service.
    pose proof (retry_delay_retryCount_at j) as Hd.
    assert (0 < retry_delay j <= 8000).
    { rewrite retry_delay_formula.
      assert (0 < 2 ^ Z.of_nat j) by (apply Z.pow_pos_nonneg; lia). lia. }
    destruct IH as (Hinv & Hclock & Hsettle).
    split_and!; [lia..|]. intros Hatt.
    destruct Hsettle as [? ?]; [lia|]. split; [lia|done].
Qed.

(** A loop that never gives up, around an operation that keeps failing,
    is still retrying however long it is followed. *)
Lemma retry_forever_from {T} (operation : nat -> Outcome T) attempts :
  forall j s,
    (forall n, threw (operation n) = true) ->
    retry_limit (maxRetries (this s)) = None ->
    let run := retryWithExponentialBackoff attempts operation (retryCount_at j) in
    outcome run s = Retrying
    /\ invocations (runtime (after run s)) = (invocations (runtime s) + attempts)%nat.
Proof.
  induction attempts as [|attempts IH]; intros j [svc [c i evs]] Hfail Hnone;
    simpl in *.
  - unfold after, outcome; simpl. split; [done|lia].
  - unfold after, outcome, invoke; simpl.
    specialize (Hfail i) as Hi. destruct (operation i) as [v|e]; [done|]. simpl.
    destruct (retries_exhausted _ _) eqn:E; simpl.
    { apply retries_exhausted_iff in E as (n & Hn & _). congruence. }
    rewrite <- retryCount_at_S.
    match goal with
    | |- context [retryWithExponentialBackoff attempts operation _ ?s1] =>
        specialize (IH (S j) s1 Hfail Hnone)
    end.
    unfold after, outcome in IH. simpl in IH. destruct IH as [-> ->].
    split; [done|lia].
Qed.

(** The limit of a service as constructed. *)
Lemma constructed_retry_limit :
  retry_limit (maxRetries (new_OpenAIService None)) = Some 3%nat
  /\ retry_limit (maxRetries (new_OpenAIService (Some (Finite 0)))) = Some 3%nat
  /\ retry_limit (maxRetries (new_OpenAIService (Some NaN))) = Some 3%nat
  /\ (forall N : nat, (1 <= N)%nat -> Z.of_nat N <= 2 ^ 53 ->
      retry_limit (maxRetries (new_OpenAIService
                                 (Some (Finite (inject_Z (Z.of_nat N))))))
      = Some N)
  /\ (forall q, (q < 0)%Q ->
      retry_limit (maxRetries (new_OpenAIService (Some (Finite q)))) = Some 0%nat)
  /\ retry_limit (maxRetries (new_OpenAIService (Some PosInfinity))) = None.
Proof.
  split_and!; try reflexivity.
  - intros N HN Hmax. simpl.
    destruct (Qeq_bool _ _) eqn:E; simpl.
    + apply Qeq_bool_iff in E. unfold Qeq in E. simpl in E. lia.
    + rewrite Qceiling_Z.
      destruct (_ <=? _)%Z eqn:E'; [f_equal; lia | apply Z.leb_gt in E'; lia].
  - intros q Hq. simpl.
    destruct (Qeq_bool _ _) eqn:E; simpl.
    + apply Qeq_bool_iff in E. rewrite E in Hq. by apply Qlt_irrefl in Hq.
    + assert (Qceiling q <= 0)%Z.
      { apply Qlt_le_weak, Qceiling_resp_le in Hq. exact Hq. }
      replace (Z.max 0 (Qceiling q)) with 0%Z by lia. reflexivity.
Qed.

(** C5, as the code has it. When the operation fails on every attempt, a
    service whose retry limit is [n] (the first count [n] with
    [n >= this.maxRetries]) invokes it exactly [n + 1] times, however much
    longer the run is followed, and then throws, unchanged, the error of
    the last attempt. A service without a limit never gives up. As
    constructed, a service has the limit [N] for a configured count
    [N >= 1], the limit 3 when the configuration is missing, [0] or [NaN],
    the limit 0 for a negative number, and none for [Infinity]. *)
Theorem exhausted_retries_propagate {T} (operation : nat -> Outcome T) s :
  (forall n, threw (operation n) = true) ->
  let i := invocations (runtime s) in
  (forall n attempts,
     retry_limit (maxRetries (this s)) = Some n -> (n < attempts)%nat ->
     let run := retryWithExponentialBackoff attempts operation 0 in
     (exists e, outcome run s = Settled (Throws e)
                /\ operation (i + n)%nat = Throws e)
     /\ invocations (runtime (after run s)) = (i + (n + 1))%nat
     /\ length (filter (fun e => is_invoke e = true) (new_events run s))
        = (n + 1)%nat)
  /\ (retry_limit (maxRetries (this s)) = None ->
      forall attempts,
        let run := retryWithExponentialBackoff attempts operation 0 in
        outcome run s = Retrying
        /\ invocations (runtime (after run s)) = (i + attempts)%nat)
  /\ (retry_limit (maxRetries (new_OpenAIService None)) = Some 3%nat
      /\ retry_limit (maxRetries (new_OpenAIService (Some (Finite 0)))) = Some 3%nat
      /\ retry_limit (maxRetries (new_OpenAIService (Some NaN))) = Some 3%nat
      /\ (forall N : nat, (1 <= N)%nat -> Z.of_nat N <= 2 ^ 53 ->
          retry_limit (maxRetries (new_OpenAIService
                                     (Some (Finite (inject_Z (Z.of_nat N))))))
          = Some N)
      /\ (forall q, (q < 0)%Q ->
          retry_limit (maxRetries (new_OpenAIService (Some (Finite q))))
          = Some 0%nat)
      /\ retry_limit (maxRetries (new_OpenAIService (Some PosInfinity))) = None).
Proof.
  intros Hfail i. split; [|split; [|apply constructed_retry_limit]].
  - intros n attempts Hn Hatt run.
    destruct (retryWithExponentialBackoff_run operation n attempts s) as (c & Hrun);
      [by intros | by left | done |].
    unfold run, outcome, after, new_events, after. rewrite Hrun. simpl.
    fold i. split_and!.
    + specialize (Hfail (i + n)%nat). destruct (operation (i + n)%nat); [done|eauto].
    + lia.
    + rewrite drop_app_length, invokes_backoff_events. lia.
  - intros Hnone attempts run.
    apply (retry_forever_from operation attempts 0 s Hfail Hnone).
Qed.

Lemma exhausted_retries_propagate_witness :
  outcome (retryWithExponentialBackoff 10 always_failing 0) (boot None 0)
  = Settled (always_failing 3)
  /\ invocations
       (runtime (after (retryWithExponentialBackoff 10 always_failing 0)
                   (boot None 0)))
     = 4%nat.
Proof.
  destruct (exhausted_retries_propagate always_failing (boot None 0)) as (H & _).
  - intros n. reflexivity.
  - destruct (H 3%nat 10%nat) as ((e & Ho & He) & Hn & _); [reflexivity | lia |].
    split; [by rewrite Ho, <- He | exact Hn].
Defined.

(** C5 as stated fails: a service configured with [maxRetries: 0] invokes
    a failing operation four times, not once, and what it then throws is
    the error of the fourth attempt as the operation threw it. *)
Lemma zero_maxRetries_makes_four_attempts :
  let s := boot (Some (Finite 0)) 0 in
  let run := retryWithExponentialBackoff 10 always_failing 0 in
  outcome run s = Settled (Throws (Error "429 Too Many Requests, attempt 3"))
  /\ invocations (runtime (after run s)) = 4%nat
  /\ invocations (runtime (after run s)) <> (0 + 1)%nat.
Proof. split_and!; [vm_compute; reflexivity..|]. vm_compute. discriminate. Qed.

(** *** Rate limiting and retrying together *)

Lemma retry_events {T} (operation : nat -> Outcome T) attempts :
  forall r s,
    this (after (retryWithExponentialBackoff attempts operation r) s) = this s /\
    exists l,
      events (runtime (after (retryWithExponentialBackoff attempts operation r) s))
      = (events (runtime s) ++ l)%list
      /\ Forall (fun e => is_rate_limit e = false) l.
Proof.
  induction attempts as [|attempts IH]; intros r [svc [c i evs]]; simpl.
  - unfold after; simpl. split; [done|]. exists []. by rewrite app_nil_r.
  - unfold after, invoke; simpl. destruct (operation i); simpl.
    + split; [done|]. exists [ev_invoke i]. split; [done|]. by repeat constructor.
    + destruct (retries_exhausted _ _); simpl.
      * split; [done|]. exists [ev_invoke i]. split; [done|]. by repeat constructor.
      * match goal with
        | |- context [retryWithExponentialBackoff attempts operation ?r' ?s'] =>
            destruct (IH r' s') as (Hthis & l & Hev & Hl)
        end.
        unfold after in Hthis, Hev. run_service. split; [by rewrite Hthis|].
        exists (ev_invoke i :: ev_sleep (retry_delay r) :: l).
        split; [|by repeat constructor].
        rewrite Hev. simpl. by rewrite <- !app_assoc.
Qed.

Lemma handleRateLimit_events type tokens s :
  outcome (handleRateLimit type tokens) s = Returns tt /\
  exists l,
    events (runtime (after (handleRateLimit type tokens) s))
    = (events (runtime s) ++ ev_rate_limit type tokens :: l)%list
    /\ Forall (fun e => is_rate_limit e = false) l.
Proof.
  destruct s as [svc [c i evs]]. run_service.
  destruct (60000 <=? _)%Z, (TOKENS_PER_MINUTE type <? _)%Z; simpl;
    (split; [done|]).
  - exists [ev_sleep (60000 - (c - lastTime_of svc type))].
    split; [by rewrite <- app_assoc|]. by repeat constructor.
  - by exists [].
  - exists [ev_sleep (60000 - (c - lastTime_of svc type))].
    split; [by rewrite <- app_assoc|]. by repeat constructor.
  - by exists [].
Qed.

(** A request method passes through the limiter once, before its first
    attempt, and is charged there and nowhere else. *)
Lemma limited_then_retried_run {T} type tokens attempts
    (operation : nat -> Outcome T) s :
  checked_once type tokens
    (new_events (limited_then_retried type tokens attempts operation) s)
  /\ this (after (limited_then_retried type tokens attempts operation) s)
     = this (after (handleRateLimit type tokens) s).
Proof.
  unfold checked_once, new_events, after, limited_then_retried.
  destruct (handleRateLimit_events type tokens s) as (Ho & l1 & Hev1 & Hl1).
  unfold outcome, after in *.
  destruct (handleRateLimit type tokens s) as [o s1] eqn:Hrl; simpl in *.
  subst o.
  destruct (retry_events operation attempts 0%nat s1) as (Hthis & l2 & Hev2 & Hl2).
  unfold after in *. split; [|done].
  rewrite Hev2, Hev1, <- app_assoc, drop_app_length.
  exists (l1 ++ l2)%list. split; [done|]. by apply Forall_app.
Qed.

(** C7, as the code has it. Each of the five request methods enters the
    rate limiter once, before the first attempt, with the estimated cost
    of the request; nothing that follows, whatever the number of attempts,
    is a rate-limit check. *)
Theorem rate_limit_checked_once_per_call attempts s :
  (forall content api,
     checked_once COMPLETIONS (estimateTokens content + 100)
       (new_events (generateSummary attempts content api) s))
  /\ (forall content api,
        checked_once COMPLETIONS (estimateTokens content + 100)
          (new_events (extractTags attempts content api) s))
  /\ (forall T text (api : nat -> Outcome T),
        checked_once EMBEDDINGS (estimateTokens text)
          (new_events (generateEmbedding attempts text api) s))
  /\ (forall content api,
        checked_once COMPLETIONS (estimateTokens content + 150)
          (new_events (generateSummaryAndTags attempts content api) s))
  /\ (forall T texts (api : nat -> Outcome T),
        checked_once EMBEDDINGS (totalEstimatedTokens texts)
          (new_events (generateBatchEmbeddings attempts texts api) s)).
Proof. split_and!; intros; apply limited_then_retried_run. Qed.

(** C7 as stated fails: the second attempt follows the first after a sleep
    only, with no rate-limit check of its own. *)
Lemma retry_skips_rate_limit :
  new_events (generateSummary 5 "hello" failing_once) (boot None 0)
  = [ ev_rate_limit COMPLETIONS 102; ev_invoke 0; ev_sleep 1000; ev_invoke 1 ]
  /\ each_attempt_checked false
       (new_events (generateSummary 5 "hello" failing_once) (boot None 0))
     = false.
Proof. split; vm_compute; reflexivity. Qed.


(** *** The token budget *)

(** The counter of [type] after a call: the cost alone when the call had
    to wait (or the minute had passed), the old count plus the cost
    otherwise; the other counter is not touched. *)
Lemma handleRateLimit_tokens type tokens s :
  tokens_of (this (after (handleRateLimit type tokens) s)) type
  = (if (TOKENS_PER_MINUTE type <? tokens_of (this s) type + tokens)%Z then 0
     else if (60000 <=? clock (runtime s) - lastTime_of (this s) type)%Z then 0
          else tokens_of (this s) type) + tokens
  /\ forall type', type' <> type ->
       tokens_of (this (after (handleRateLimit type tokens) s)) type'
       = tokens_of (this s) type'.
Proof.
  destruct s as [[N ct et lc le] [c i evs]]. run_service.
  destruct type; simpl;
    destruct (60000 <=? _)%Z, (_ <? _)%Z; simpl;
    (split; [done|]); intros []; done.
Qed.

Lemma handleRateLimit_within_budget type tokens s :
  within_budget (this s) ->
  0 <= tokens <= TOKENS_PER_MINUTE type ->
  within_budget (this (after (handleRateLimit type tokens) s)).
Proof.
  intros Hs Htok type'.
  destruct (handleRateLimit_tokens type tokens s) as [Hsame Hother].
  destruct (decide (type' = type)) as [->|Hne].
  - rewrite Hsame. specialize (Hs type).
    destruct (_ <? _)%Z eqn:E1; [lia|]. apply Z.ltb_ge in E1.
    destruct (60000 <=? _)%Z; lia.
  - rewrite Hother by done. apply Hs.
Qed.

Lemma handleRateLimit_waits type tokens s :
  TOKENS_PER_MINUTE type < tokens_of (this s) type + tokens ->
  new_events (handleRateLimit type tokens) s
  = [ ev_rate_limit type tokens;
      ev_sleep (60000 - (clock (runtime s) - lastTime_of (this s) type)) ].
Proof.
  intros H%Z.ltb_lt. destruct s as [svc [c i evs]].
  unfold new_events. run_service. rewrite H.
  destruct (60000 <=? _)%Z; simpl; by rewrite <- app_assoc, drop_app_length.
Qed.

(** What the counters do guarantee. From a service within its budgets,
    every sequence of calls through the limiter whose costs lie between
    zero and the per-minute budget of their type leaves both counters
    within budget, whatever the clock reads at each call. A call whose
    cost, added to the count read at entry, exceeds the budget sleeps
    [60000 - (now - lastTime)] milliseconds, after which the counter
    restarts from zero and holds the cost of that call alone. *)
Lemma affordable_requests_stay_within_budget rs s :
  within_budget (this s) ->
  Forall affordable rs ->
  within_budget (this (serve_all rs s))
  /\ (forall type tokens,
        TOKENS_PER_MINUTE type < tokens_of (this s) type + tokens ->
        new_events (handleRateLimit type tokens) s
        = [ ev_rate_limit type tokens;
            ev_sleep (60000 - (clock (runtime s) - lastTime_of (this s) type)) ]
        /\ tokens_of (this (after (handleRateLimit type tokens) s)) type = tokens).
Proof.
  intros Hs Hrs. split.
  - revert s Hs. induction Hrs as [|r rs Hr _ IH]; intros s Hs; simpl; [done|].
    apply IH. unfold serve. by apply handleRateLimit_within_budget.
  - intros type tokens H. split; [by apply handleRateLimit_waits|].
    destruct (handleRateLimit_tokens type tokens s) as [-> _].
    apply Z.ltb_lt in H. by rewrite H.
Qed.

(** A single call that costs more than the budget is let through after
    its wait, and leaves the counter above the budget. *)
Lemma oversized_request_exceeds_budget type tokens s :
  0 <= tokens_of (this s) type ->
  TOKENS_PER_MINUTE type < tokens ->
  outcome (handleRateLimit type tokens) s = Returns tt
  /\ tokens_of (this (after (handleRateLimit type tokens) s)) type = tokens
  /\ ~ within_budget (this (after (handleRateLimit type tokens) s)).
Proof.
  intros H0 Hbig.
  assert (tokens_of (this (after (handleRateLimit type tokens) s)) type = tokens)
    as Htok.
  { destruct (handleRateLimit_tokens type tokens s) as [-> _].
    replace (_ <? _)%Z with true by (symmetry; apply Z.ltb_lt; lia). lia. }
  split_and!; [apply handleRateLimit_events | done |].
  intros H. specialize (H type). lia.
Qed.

(** C6, on the code: three completion requests of 90000 tokens each, none
    above the budget of 90000 tokens per minute, made one after the other
    at [start], one second later and 61 seconds later. The second waits
    until [start + 60000] and the third leaves the limiter at
    [start + 61000]: 180000 tokens go to the remote service within one
    second, while the counter never reads more than 90000. *)
Theorem burst_exceeds_budget_within_a_minute start :
  let s := boot None start in
  Forall affordable (burst start)
  /\ one_at_a_time (burst start) s
  /\ releases (burst start) s
     = [ (start, mkRequest start COMPLETIONS 90000);
         (start + 60000, mkRequest (start + 1000) COMPLETIONS 90000);
         (start + 61000, mkRequest (start + 61000) COMPLETIONS 90000) ]
  /\ released_in_minute COMPLETIONS (start + 60000) (releases (burst start) s)
     = 180000
  /\ TOKENS_PER_MINUTE COMPLETIONS = 90000
  /\ (forall n, within_budget (this (serve_all (take n (burst start)) s))).
Proof.
  intros s.
  set (r1 := mkRequest start COMPLETIONS 90000).
  set (r2 := mkRequest (start + 1000) COMPLETIONS 90000).
  set (r3 := mkRequest (start + 61000) COMPLETIONS 90000).
  assert (Forall affordable (burst start)) as Haff
    by (repeat constructor; simpl; lia).
  assert (serve r1 s
          = mkSystem (mkService MAX_RETRIES 90000 0 start 0)
              (mkRuntime start 0 [ev_rate_limit COMPLETIONS 90000])) as H1.
  { unfold s, r1, serve, at_time, boot. run_service.
    by destruct (60000 <=? start - 0)%Z. }
  assert (serve r2 (serve r1 s)
          = mkSystem (mkService MAX_RETRIES 90000 0 (start + 1000) 0)
              (mkRuntime (start + 60000) 0
                 [ev_rate_limit COMPLETIONS 90000;
                  ev_rate_limit COMPLETIONS 90000; ev_sleep 59000])) as H2.
  { rewrite H1. unfold r2, serve, at_time. run_service.
    replace (start + 1000 - start) with 1000 by lia. simpl.
    replace (60000 - 1000) with 59000 by lia.
    replace (start + 1000 + 0 `max` 59000) with (start + 60000) by lia.
    reflexivity. }
  assert (serve r3 (serve r2 (serve r1 s))
          = mkSystem (mkService MAX_RETRIES 90000 0 (start + 61000) 0)
              (mkRuntime (start + 61000) 0
                 [ev_rate_limit COMPLETIONS 90000;
                  ev_rate_limit COMPLETIONS 90000; ev_sleep 59000;
                  ev_rate_limit COMPLETIONS 90000; ev_sleep 0])) as H3.
  { rewrite H2. unfold r3, serve, at_time. run_service.
    replace (start + 61000 - (start + 1000)) with 60000 by lia. simpl.
    replace (start + 61000 + 0 `max` (60000 - 60000)) with (start + 61000) by lia.
    reflexivity. }
  assert (releases (burst start) s
          = [ (start, r1); (start + 60000, r2); (start + 61000, r3) ]) as Hrel.
  { unfold burst. fold r1 r2 r3. cbn [releases]. by rewrite H3, H2, H1. }
  split_and!; [done| |done| |done|].
  - unfold burst. fold r1 r2 r3. cbn [one_at_a_time]. rewrite H2, H1.
    unfold s, boot. simpl. lia.
  - rewrite Hrel. unfold released_in_minute, r1, r2, r3. simpl.
    replace (start + 60000 <=? start)%Z with false
      by (symmetry; apply Z.leb_gt; lia).
    replace (start + 60000 <=? start + 60000)%Z with true
      by (symmetry; apply Z.leb_le; lia).
    replace (start + 60000 <=? start + 61000)%Z with true
      by (symmetry; apply Z.leb_le; lia).
    replace (start + 60000 <? start + 60000 + 60000)%Z with true
      by (symmetry; apply Z.ltb_lt; lia).
    replace (start + 61000 <? start + 60000 + 60000)%Z with true
      by (symmetry; apply Z.ltb_lt; lia).
    reflexivity.
  - intros n. apply affordable_requests_stay_within_budget.
    + intros []; simpl; lia.
    + by apply Forall_take.
Qed.

End OpenAIProofs.

(** * Further properties of the checkpoint manager and the JSON helpers *)

Module CheckpointExtras.
Import Checkpoint CheckpointProofs.

Ltac run_io :=
  unfold initialize, ensureDirectory, fileExists, readJSON, updateJSON,
    fs_access, fs_mkdir, fs_readFile, fs_rename, fs_unlink, JSON_parse,
    JSON_stringify, writeJSONSafe in *;
  run_method.

(** Name the checkpoint directory and file of the world at hand. *)
Ltac name_paths c :=
  unfold CHECKPOINT_FULL_PATH, CHECKPOINT_DIRECTORY, BASE_DIR in *; simpl in *;
  set (DIR := path_join c "data") in *;
  set (FULL := path_join DIR CHECKPOINT_FILENAME) in *.

Lemma string_length_app s1 s2 :
  String.length (s1 +:+ s2) = (String.length s1 + String.length s2)%nat.
Proof. induction s1 as [|a s1 IH]; simpl; [done | by rewrite IH]. Qed.

Lemma string_app_assoc s1 s2 s3 : (s1 +:+ s2) +:+ s3 = s1 +:+ s2 +:+ s3.
Proof.
  induction s1 as [|a s1 IH]; [done|].
  change (String a ((s1 +:+ s2) +:+ s3) = String a (s1 +:+ s2 +:+ s3)).
  by rewrite IH.
Qed.

Lemma string_app_empty s1 s2 : s1 +:+ s2 = EmptyString -> s2 = EmptyString.
Proof. by destruct s1. Qed.

(** *** Joining a directory and a plain name *)

Lemma segments_nonempty path : segments path <> [].
Proof.
  destruct path as [|c rest]; simpl; [done|].
  destruct (Ascii.eqb c "/"); [done|]. by destruct (segments rest).
Qed.

Lemma segments_plain b : has_char "/" b = false -> segments b = [b].
Proof.
  induction b as [|c b IH]; simpl; [done|].
  intros [Hc Hb]%orb_false_iff. rewrite Hc, IH by done. done.
Qed.

Lemma segments_app a b :
  has_char "/" b = false -> segments (a +:+ "/" +:+ b) = (segments a ++ [b])%list.
Proof.
  intros Hb. induction a as [|c a IH]; simpl.
  - by rewrite segments_plain.
  - rewrite IH. destruct (Ascii.eqb c "/"); [done|].
    pose proof (segments_nonempty a). by destruct (segments a).
Qed.

Lemma normalize_segment_plain allowAboveRoot kept b :
  plain b -> normalize_segment allowAboveRoot kept b = b :: kept.
Proof.
  intros (H1 & H2 & H3 & _). unfold normalize_segment.
  rewrite bool_decide_eq_false_2 by (intros [?|?]; done).
  by rewrite bool_decide_eq_false_2.
Qed.

Lemma join_segments_snoc l b :
  join_segments (l ++ [b])
  = match l with
    | [] => b
    | _ => join_segments l +:+ "/" +:+ b
    end.
Proof.
  induction l as [|x l IH]; [done|].
  change ((x :: l) ++ [b])%list with (x :: (l ++ [b]))%list.
  destruct l as [|y l]; [done|].
  change (join_segments (x :: (y :: l) ++ [b]))
    with (x +:+ "/" +:+ join_segments ((y :: l) ++ [b])).
  rewrite IH.
  change (join_segments (x :: y :: l)) with (x +:+ "/" +:+ join_segments (y :: l)).
  by rewrite !string_app_assoc.
Qed.

Lemma last_char_app p s : s <> EmptyString -> last_char (p +:+ s) = last_char s.
Proof.
  intros Hs. induction p as [|c p IH]; [done|].
  change (String c p +:+ s) with (String c (p +:+ s)).
  destruct (p +:+ s) eqn:E; [|done].
  by apply string_app_empty in E.
Qed.

Lemma last_char_has_char s c : last_char s = Some c -> has_char c s = true.
Proof.
  induction s as [|c' s IH]; [done|]. simpl.
  destruct s as [|c'' s].
  - intros [= ->]. by rewrite Ascii.eqb_refl.
  - intros H. rewrite IH by done. apply orb_true_r.
Qed.

Lemma plain_no_trailingSeparator p b : plain b -> trailingSeparator (p +:+ b) = false.
Proof.
  intros (H1 & _ & _ & H4). unfold trailingSeparator.
  apply bool_decide_eq_false. rewrite last_char_app by done.
  intros H%last_char_has_char. congruence.
Qed.

Lemma isAbsolute_app a x : a <> EmptyString -> isAbsolute (a +:+ x) = isAbsolute a.
Proof. by destruct a. Qed.

(** [path.join(a, b)] ends in [b] when [b] is a plain name, and what it
    puts before [b] depends on [a] only. *)
Lemma normalize_join_plain a b :
  a <> EmptyString -> plain b ->
  normalize (a +:+ "/" +:+ b) = join_prefix a +:+ b.
Proof.
  intros Ha Hb. pose proof Hb as (H1 & H2 & H3 & H4).
  unfold normalize, normalizeString, join_prefix.
  rewrite bool_decide_eq_false_2
    by (intros H; by apply string_app_empty, string_app_empty in H).
  rewrite isAbsolute_app by done.
  assert (trailingSeparator (a +:+ "/" +:+ b) = false) as ->
    by (rewrite <- string_app_assoc; by apply plain_no_trailingSeparator).
  assert (kept_segments (a +:+ "/" +:+ b) (negb (isAbsolute a))
          = b :: kept_segments a (negb (isAbsolute a))) as ->.
  { unfold kept_segments. rewrite segments_app, foldl_app by done.
    cbn [foldl]. by rewrite normalize_segment_plain. }
  rewrite reverse_cons, join_segments_snoc.
  destruct (kept_segments a (negb (isAbsolute a))) as [|x kept] eqn:E.
  - change (reverse []) with (@nil string).
    rewrite bool_decide_eq_false_2 by done. by destruct (isAbsolute a).
  - destruct (reverse (x :: kept)) as [|y l] eqn:E'.
    { apply (f_equal length) in E'. rewrite length_reverse in E'. done. }
    rewrite bool_decide_eq_false_2
      by (intros H; by apply string_app_empty, string_app_empty in H).
    destruct (isAbsolute a); by rewrite ?string_app_assoc.
Qed.

Lemma path_join_plain a b : plain b -> path_join a b = join_prefix a +:+ b.
Proof.
  intros Hb. pose proof Hb as (H1 & H2 & H3 & H4).
  unfold path_join. destruct b as [|cb b]; [done|].
  destruct a as [|ca a]; [|by apply normalize_join_plain].
  unfold normalize, normalizeString, kept_segments.
  rewrite bool_decide_eq_false_2 by done.
  assert (isAbsolute (String cb b) = false) as ->.
  { simpl in *. by apply orb_false_iff in H4 as [H4 _]. }
  rewrite segments_plain by done. cbn [foldl].
  rewrite normalize_segment_plain by done.
  change (reverse [String cb b]) with [String cb b]. cbn [join_segments].
  rewrite bool_decide_eq_false_2 by done.
  pose proof (plain_no_trailingSeparator EmptyString _ Hb) as Ht.
  change (EmptyString +:+ String cb b) with (String cb b) in Ht.
  by rewrite Ht.
Qed.

Lemma path_join_plain_inj a b b' :
  plain b -> plain b' -> path_join a b = path_join a b' -> b = b'.
Proof.
  intros Hb Hb'. rewrite !path_join_plain by done. apply String.app_inj.
Qed.

(** The checkpoint file is not its own directory. *)
Lemma checkpoint_path_ne c :
  path_join (path_join c "data") CHECKPOINT_FILENAME <> path_join c "data".
Proof.
  assert (plain "data") by (by split_and!).
  assert (plain CHECKPOINT_FILENAME) by (by split_and!).
  rewrite !path_join_plain by done. intros Heq.
  apply (f_equal last_char) in Heq. by rewrite !last_char_app in Heq.
Qed.

(** *** [initialize] *)

(** X1. On a disk without a checkpoint file [initialize(n)] leaves in the
    manager a new document: version 1.0.0, [n] notes, the four stages not
    started and without ids, created at the first clock reading. The save
    that follows throws, [initialize] rethrows it as
    ['Failed to initialize checkpoint: ...'], and no file is written. *)
Theorem initialize_creates_document n s :
  files (world s) !! CHECKPOINT_FULL_PATH (world s) = None ->
  CHECKPOINT_FULL_PATH (world s) ∉ dirs (world s) ->
  (exists detail,
     outcome (initialize n) s
     = Throws (Error ("Failed to initialize checkpoint: Error writing JSON to file [object Object]: "
                      +:+ detail)))
  /\ document (after (initialize n) s)
     = Some (mkCheckpointMetadata "1.0.0" n
               (mkStages fresh_stage fresh_stage fresh_stage fresh_stage)
               (wall (world s) (reads (world s)))
               (wall (world s) (S (S (reads (world s))))))
  /\ files (world (after (initialize n) s)) = files (world s).
Proof.
  destruct s as [mgr [f d wl r c lg]]. simpl. intros Hf Hd.
  run_io. name_paths c.
  assert (E1 : bool_decide (is_Some (f !! FULL)) = false)
    by (apply bool_decide_eq_false; rewrite Hf; by intros [? ?]).
  assert (E2 : bool_decide (FULL ∈ d) = false) by by apply bool_decide_eq_false.
  assert (E3 : bool_decide (FULL ∈ ({[DIR]} ∪ d : gset string)) = false).
  { apply bool_decide_eq_false.
    intros [H%elem_of_singleton|H]%elem_of_union; [|done].
    by apply checkpoint_path_ne in H. }
  destruct (bool_decide (is_Some (f !! DIR)) || bool_decide (DIR ∈ d)); simpl;
    rewrite E1, ?E2, ?E3; simpl; (split; [by eexists | done]).
Qed.

Lemma initialize_creates_document_witness :
  document (after (initialize 3) (boot empty_world))
  = Some (mkCheckpointMetadata "1.0.0" 3
            (mkStages fresh_stage fresh_stage fresh_stage fresh_stage)
            (sample_wall 0) (sample_wall 2)).
Proof.
  apply (initialize_creates_document 3 (boot empty_world)).
  - reflexivity.
  - apply not_elem_of_empty.
Defined.

(** X2. When the checkpoint file holds a document for the same number of
    notes, [initialize] returns normally with that document in the
    manager, without reading the clock and without changing any file. *)
Theorem initialize_resumes n s m indented :
  files (world s) !! CHECKPOINT_FULL_PATH (world s)
  = Some (Stringified (JDoc m) indented) ->
  totalNotes m = n ->
  outcome (initialize n) s = Returns tt
  /\ document (after (initialize n) s) = Some m
  /\ files (world (after (initialize n) s)) = files (world s)
  /\ reads (world (after (initialize n) s)) = reads (world s).
Proof.
  destruct s as [mgr [f d wl r c lg]]. simpl. intros Hf Hn.
  run_io. name_paths c.
  assert (E1 : bool_decide (is_Some (f !! FULL)) = true)
    by (apply bool_decide_eq_true; rewrite Hf; eauto).
  destruct (bool_decide (is_Some (f !! DIR)) || bool_decide (DIR ∈ d)); simpl;
    rewrite E1; simpl; rewrite Hf; simpl; rewrite Hn, Z.eqb_refl; simpl; done.
Qed.

Lemma initialize_resumes_witness :
  outcome (initialize 10) (boot resumed_world) = Returns tt
  /\ document (after (initialize 10) (boot resumed_world)) = Some resumed_document.
Proof.
  destruct (initialize_resumes 10 (boot resumed_world) resumed_document true)
    as (Ho & Hd & _); [reflexivity | reflexivity |].
  by split.
Defined.

(** X3. When the checkpoint file holds a document for another number of
    notes, [initialize(n)] keeps its version, creation time and the whole
    progress of every stage, and sets [totalNotes] to [n]; the save of the
    corrected document throws and the file keeps the old count. *)
Theorem initialize_corrects_total n s m indented :
  files (world s) !! CHECKPOINT_FULL_PATH (world s)
  = Some (Stringified (JDoc m) indented) ->
  totalNotes m <> n ->
  threw (outcome (initialize n) s) = true
  /\ (exists updated,
        document (after (initialize n) s)
        = Some (mkCheckpointMetadata (version m) n (stages m) (createdAt m) updated))
  /\ files (world (after (initialize n) s)) = files (world s).
Proof.
  destruct s as [mgr [f d wl r c lg]]. simpl. intros Hf Hn.
  run_io. name_paths c.
  assert (E1 : bool_decide (is_Some (f !! FULL)) = true)
    by (apply bool_decide_eq_true; rewrite Hf; eauto).
  apply Z.eqb_neq in Hn.
  destruct (bool_decide (is_Some (f !! DIR)) || bool_decide (DIR ∈ d)); simpl;
    rewrite E1; simpl; rewrite Hf; simpl; rewrite Hn; simpl; eauto.
Qed.

Lemma initialize_corrects_total_witness :
  exists updated,
    document (after (initialize 15) (boot resumed_world))
    = Some (mkCheckpointMetadata "1.0.0" 15 (stages resumed_document)
              "2024-12-31T00:00:00.000Z" updated).
Proof.
  destruct (initialize_corrects_total 15 (boot resumed_world) resumed_document true)
    as (_ & Hd & _); [reflexivity | discriminate |].
  exact Hd.
Defined.

(** X4. When the checkpoint file does not parse, [initialize] throws
    ['Failed to initialize checkpoint: Invalid JSON in file: <path>'] and
    leaves the manager and the files as they were: a manager that was not
    initialised stays so. *)
Theorem initialize_rejects_damaged_file n s raw :
  files (world s) !! CHECKPOINT_FULL_PATH (world s) = Some (Malformed raw) ->
  outcome (initialize n) s
  = Throws (Error ("Failed to initialize checkpoint: Invalid JSON in file: "
                   +:+ CHECKPOINT_FULL_PATH (world s)))
  /\ document (after (initialize n) s) = document s
  /\ files (world (after (initialize n) s)) = files (world s).
Proof.
  destruct s as [mgr [f d wl r c lg]]. simpl. intros Hf.
  run_io. name_paths c.
  assert (E1 : bool_decide (is_Some (f !! FULL)) = true)
    by (apply bool_decide_eq_true; rewrite Hf; eauto).
  destruct (bool_decide (is_Some (f !! DIR)) || bool_decide (DIR ∈ d)); simpl;
    rewrite E1; simpl; rewrite Hf; simpl; done.
Qed.

Lemma initialize_rejects_damaged_file_witness :
  outcome (initialize 3) (boot damaged_world)
  = Throws (Error "Failed to initialize checkpoint: Invalid JSON in file: /app/data/checkpoint.json")
  /\ document (after (initialize 3) (boot damaged_world)) = None.
Proof.
  destruct (initialize_rejects_damaged_file 3 (boot damaged_world) "{ version: ")
    as (Ho & Hd & _); [reflexivity|].
  by split.
Defined.

(** X31. When a directory sits where the checkpoint file should be,
    [initialize] finds that something exists at the path, fails to read
    it, and throws ['Failed to initialize checkpoint: Error reading JSON
    file <path>: ...']; the manager and the files stay as they were. *)
Theorem initialize_rejects_directory n s :
  files (world s) !! CHECKPOINT_FULL_PATH (world s) = None ->
  CHECKPOINT_FULL_PATH (world s) ∈ dirs (world s) ->
  (exists detail,
     outcome (initialize n) s
     = Throws (Error ("Failed to initialize checkpoint: Error reading JSON file "
                      +:+ CHECKPOINT_FULL_PATH (world s) +:+ ": " +:+ detail)))
  /\ document (after (initialize n) s) = document s
  /\ files (world (after (initialize n) s)) = files (world s).
Proof.
  destruct s as [mgr [f d wl r c lg]]. simpl. intros Hf Hd.
  run_io. name_paths c.
  assert (E1 : bool_decide (FULL ∈ d) = true) by by apply bool_decide_eq_true.
  assert (E2 : bool_decide (FULL ∈ ({[DIR]} ∪ d : gset string)) = true).
  { apply bool_decide_eq_true. apply elem_of_union. by right. }
  destruct (bool_decide (is_Some (f !! DIR)) || bool_decide (DIR ∈ d)); simpl;
    rewrite ?E1, ?E2, orb_true_r; simpl; rewrite Hf; simpl;
    rewrite ?E1, ?E2; simpl; (split; [by eexists | done]).
Qed.

Lemma initialize_rejects_directory_witness :
  (exists detail,
     outcome (initialize 3) (boot blocked_world)
     = Throws (Error ("Failed to initialize checkpoint: Error reading JSON file "
                      +:+ "/app/data/checkpoint.json" +:+ ": " +:+ detail)))
  /\ document (after (initialize 3) (boot blocked_world)) = None
  /\ files (world (after (initialize 3) (boot blocked_world))) = ∅.
Proof.
  apply (initialize_rejects_directory 3 (boot blocked_world)).
  - reflexivity.
  - vm_compute. by apply (bool_decide_unpack _).
Defined.

(** *** What the mutating methods keep *)

Lemma record_note_processed p noteId (success : bool) x :
  x ∈ processedNoteIds (record_note p noteId success)
  <-> x ∈ processedNoteIds p \/ (success = true /\ x = noteId).
Proof.
  unfold record_note, push.
  destruct success; destruct (includes _ noteId) eqn:E; simpl.
  - apply includes_true in E. split; [auto | by intros [|[_ ->]]].
  - rewrite elem_of_app, list_elem_of_singleton. intuition.
  - split; [auto | by intros [|[? _]]].
  - split; [auto | by intros [|[? _]]].
Qed.

Lemma record_note_failed p noteId (success : bool) x :
  x ∈ failedNoteIds (record_note p noteId success)
  <-> x ∈ failedNoteIds p \/ (success = false /\ x = noteId).
Proof.
  unfold record_note, push.
  destruct success; destruct (includes _ noteId) eqn:E; simpl.
  - split; [auto | by intros [|[? _]]].
  - split; [auto | by intros [|[? _]]].
  - apply includes_true in E. split; [auto | by intros [|[_ ->]]].
  - rewrite elem_of_app, list_elem_of_singleton. intuition.
Qed.

Lemma record_note_prefix p noteId success :
  processedNoteIds p `prefix_of` processedNoteIds (record_note p noteId success)
  /\ failedNoteIds p `prefix_of` failedNoteIds (record_note p noteId success).
Proof.
  unfold record_note, push.
  destruct success; destruct (negb _); simpl; split;
    try done; by apply prefix_app_r.
Qed.

Lemma record_note_NoDup p noteId success :
  NoDup (processedNoteIds p) -> NoDup (failedNoteIds p) ->
  NoDup (processedNoteIds (record_note p noteId success))
  /\ NoDup (failedNoteIds (record_note p noteId success)).
Proof.
  intros Hp Hf. unfold record_note, push.
  destruct success; destruct (includes _ noteId) eqn:E; simpl; split; try done;
    apply includes_false in E; apply NoDup_app; split_and!; try done;
    try apply NoDup_singleton;
    by intros x Hx ->%list_elem_of_singleton.
Qed.

(** The document after a call, as a function of the document before: the
    record of the call's stage is replaced, everything else but
    [lastUpdated] is kept. *)
Lemma perform_document c s m :
  document s = Some m ->
  exists p updated,
    document (after (perform c) s)
    = Some (mkCheckpointMetadata (version m) (totalNotes m)
              (stage_set (stages m) (call_stage c) p) (createdAt m) updated)
    /\ processedNoteIds (stage_get (stages m) (call_stage c))
       `prefix_of` processedNoteIds p
    /\ failedNoteIds (stage_get (stages m) (call_stage c))
       `prefix_of` failedNoteIds p
    /\ (NoDup (processedNoteIds (stage_get (stages m) (call_stage c))) ->
        NoDup (failedNoteIds (stage_get (stages m) (call_stage c))) ->
        NoDup (processedNoteIds p) /\ NoDup (failedNoteIds p)).
Proof.
  intros Hdoc. destruct c as [stage|stage noteId success|stage|stage msg]; simpl.
  - destruct (startStage_document s m stage Hdoc) as (now & updated & ->).
    case_bool_decide.
    + exists (stage_get (stages m) stage), (lastUpdated m).
      split_and!; try done. destruct m as [? ? st ? ?]. simpl. f_equal.
      f_equal. by destruct stage, st.
    + eexists _, _. split; [reflexivity|]. simpl. by split_and!.
  - destruct (updateNoteProgress_document s m stage noteId success Hdoc)
      as (now & updated & ->).
    eexists _, _. split; [reflexivity|]. simpl.
    destruct (record_note_prefix (stage_get (stages m) stage) noteId success).
    split_and!; try done. apply record_note_NoDup.
  - destruct (completeStage_document s m stage Hdoc) as (now & updated & ->).
    eexists _, _. split; [reflexivity|]. simpl. by split_and!.
  - destruct (failStage_document s m stage msg Hdoc) as (updated & ->).
    eexists _, _. split; [reflexivity|]. simpl. by split_and!.
Qed.

(** X5. Over any sequence of [startStage], [updateNoteProgress],
    [completeStage] and [failStage] calls, the ids recorded in
    [processedNoteIds] and [failedNoteIds] of every stage are never
    removed or reordered: the old arrays are prefixes of the new ones. *)
Theorem recorded_ids_are_kept cs s m :
  document s = Some m ->
  exists m',
    document (perform_all cs s) = Some m'
    /\ forall stage,
         processedNoteIds (stage_get (stages m) stage)
         `prefix_of` processedNoteIds (stage_get (stages m') stage)
         /\ failedNoteIds (stage_get (stages m) stage)
            `prefix_of` failedNoteIds (stage_get (stages m') stage).
Proof.
  revert s m. induction cs as [|c cs IH]; intros s m Hdoc; simpl; [by eauto|].
  destruct (perform_document c s m Hdoc) as (p & updated & Hdoc' & Hp & Hf & _).
  destruct (IH _ _ Hdoc') as (m' & Hm' & Hstages).
  exists m'. split; [done|]. intros stage.
  destruct (Hstages stage) as [Hp' Hf']. simpl in Hp', Hf'.
  rewrite stage_get_set in Hp', Hf'. case_decide; subst.
  - split; by etrans.
  - done.
Qed.

Lemma recorded_ids_are_kept_witness :
  exists m',
    document (perform_all disjoint_calls loaded_system) = Some m'
    /\ forall stage,
         processedNoteIds (stage_get (stages stored_document) stage)
         `prefix_of` processedNoteIds (stage_get (stages m') stage)
         /\ failedNoteIds (stage_get (stages stored_document) stage)
            `prefix_of` failedNoteIds (stage_get (stages m') stage).
Proof.
  apply (recorded_ids_are_kept disjoint_calls loaded_system stored_document).
  vm_compute. reflexivity.
Defined.

(** X6. If no id occurs twice in [processedNoteIds] or in [failedNoteIds]
    of any stage, this is still so after any sequence of calls: an id is
    recorded at most once per array. *)
Theorem recorded_ids_stay_unique cs s m :
  document s = Some m ->
  (forall stage, NoDup (processedNoteIds (stage_get (stages m) stage))
                 /\ NoDup (failedNoteIds (stage_get (stages m) stage))) ->
  exists m',
    document (perform_all cs s) = Some m'
    /\ forall stage, NoDup (processedNoteIds (stage_get (stages m') stage))
                     /\ NoDup (failedNoteIds (stage_get (stages m') stage)).
Proof.
  revert s m. induction cs as [|c cs IH]; intros s m Hdoc Hm; simpl; [by eauto|].
  destruct (perform_document c s m Hdoc) as (p & updated & Hdoc' & _ & _ & Hnd).
  apply (IH _ _ Hdoc'). intros stage. simpl. rewrite stage_get_set.
  case_decide; subst; [|apply Hm]. apply Hnd; apply Hm.
Qed.

Lemma recorded_ids_stay_unique_witness :
  exists m',
    document (perform_all disjoint_calls loaded_system) = Some m'
    /\ forall stage, NoDup (processedNoteIds (stage_get (stages m') stage))
                     /\ NoDup (failedNoteIds (stage_get (stages m') stage)).
Proof.
  apply (recorded_ids_stay_unique disjoint_calls loaded_system stored_document).
  - vm_compute. reflexivity.
  - intros []; split; constructor.
Defined.

(** X7. A call on one stage leaves the progress record of every other
    stage exactly as it was. *)
Theorem calls_touch_one_stage c s m stage :
  document s = Some m ->
  stage <> call_stage c ->
  progress_of (after (perform c) s) stage = progress_of s stage.
Proof.
  intros Hdoc Hne. unfold progress_of.
  destruct (perform_document c s m Hdoc) as (p & updated & -> & _).
  rewrite Hdoc. simpl. by rewrite stage_get_set_ne.
Qed.

Lemma calls_touch_one_stage_witness :
  progress_of (after (perform (do_failStage ENRICHMENT "boom")) loaded_system)
    RAW_EXPORT
  = progress_of loaded_system RAW_EXPORT.
Proof.
  apply (calls_touch_one_stage _ loaded_system stored_document).
  - vm_compute. reflexivity.
  - discriminate.
Defined.

(** X8. No sequence of calls changes the version, the creation time or
    the note count of the document; only [initialize] sets [totalNotes]. *)
Theorem calls_keep_header cs s m :
  document s = Some m ->
  exists m',
    document (perform_all cs s) = Some m'
    /\ version m' = version m
    /\ totalNotes m' = totalNotes m
    /\ createdAt m' = createdAt m.
Proof.
  revert s m. induction cs as [|c cs IH]; intros s m Hdoc; simpl; [by eauto|].
  destruct (perform_document c s m Hdoc) as (p & updated & Hdoc' & _).
  destruct (IH _ _ Hdoc') as (m' & Hm' & Hv & Hn & Hc). eauto.
Qed.

Lemma calls_keep_header_witness :
  exists m',
    document (perform_all disjoint_calls loaded_system) = Some m'
    /\ version m' = "1.0.0" /\ totalNotes m' = 1
    /\ createdAt m' = "2024-12-31T00:00:00.000Z".
Proof.
  apply (calls_keep_header disjoint_calls loaded_system stored_document).
  vm_compute. reflexivity.
Defined.

(** *** Starting, failing and completing a stage *)

Lemma startStage_in_progress s m stage :
  document s = Some m ->
  status (stage_get (stages m) stage) = IN_PROGRESS ->
  startStage stage s = (Returns tt, s).
Proof.
  intros H Hst. open_system s H. run_method.
  by rewrite bool_decide_eq_true_2.
Qed.

(** X9. [startStage] on a stage that is [IN_PROGRESS] returns at once and
    changes nothing: no field of the manager, no clock reading, no
    file-system call. Hence a second [startStage] right after a first one
    is such a no-op, and the [startTime] of the first call stands. *)
Theorem startStage_twice s m stage :
  document s = Some m ->
  (status (stage_get (stages m) stage) = IN_PROGRESS ->
   startStage stage s = (Returns tt, s))
  /\ startStage stage (after (startStage stage) s)
     = (Returns tt, after (startStage stage) s).
Proof.
  intros Hdoc. split; [by apply startStage_in_progress|].
  destruct (startStage_document s m stage Hdoc) as (now & updated & Hdoc').
  eapply startStage_in_progress; [exact Hdoc'|].
  case_bool_decide; [done|]. simpl. by rewrite stage_get_set_eq.
Qed.

Lemma startStage_twice_witness :
  startStage RAW_EXPORT (after (startStage RAW_EXPORT) loaded_system)
  = (Returns tt, after (startStage RAW_EXPORT) loaded_system).
Proof.
  apply (startStage_twice loaded_system stored_document RAW_EXPORT).
  vm_compute. reflexivity.
Defined.

(** X10. Resuming after a stage failure: [failStage(stage, msg)] followed
    by [startStage(stage)] leaves the stage [IN_PROGRESS] with its error
    cleared, a start time set, and the processed and failed ids it had
    before the failure; in between, the stage is [FAILED] with [msg] as
    its error. *)
Theorem failed_stage_restarts_with_its_ids s m stage msg :
  document s = Some m ->
  let p := stage_get (stages m) stage in
  let s1 := after (failStage stage msg) s in
  let s2 := after (startStage stage) s1 in
  (exists p1, progress_of s1 stage = Some p1
              /\ status p1 = FAILED /\ error p1 = Some msg
              /\ processedNoteIds p1 = processedNoteIds p
              /\ failedNoteIds p1 = failedNoteIds p)
  /\ (exists p2, progress_of s2 stage = Some p2
                 /\ status p2 = IN_PROGRESS /\ error p2 = None
                 /\ is_Some (startTime p2)
                 /\ processedNoteIds p2 = processedNoteIds p
                 /\ failedNoteIds p2 = failedNoteIds p).
Proof.
  intros Hdoc p s1 s2. unfold progress_of.
  destruct (failStage_document s m stage msg Hdoc) as (updated & Hdoc1).
  fold s1 in Hdoc1. split.
  - rewrite Hdoc1. simpl. rewrite stage_get_set_eq. eexists. by split_and!.
  - destruct (startStage_document s1 _ stage Hdoc1) as (now & updated' & Hdoc2).
    fold s2 in Hdoc2. rewrite Hdoc2. simpl. rewrite stage_get_set_eq. simpl.
    rewrite stage_get_set_eq. eexists. split_and!; try done; by eexists.
Qed.

Lemma failed_stage_restarts_with_its_ids_witness :
  exists p2,
    progress_of
      (after (startStage RAW_EXPORT)
         (after (failStage RAW_EXPORT "disk full") (after (initialize 10) (boot resumed_world))))
      RAW_EXPORT = Some p2
    /\ status p2 = IN_PROGRESS /\ error p2 = None
    /\ processedNoteIds p2 = ["0"; "2"] /\ failedNoteIds p2 = ["1"].
Proof.
  destruct (failed_stage_restarts_with_its_ids
              (after (initialize 10) (boot resumed_world)) resumed_document
              RAW_EXPORT "disk full")
    as (_ & p2 & Hp2 & Hst & Herr & _ & Hp & Hf); [vm_compute; reflexivity|].
  exists p2. by split_and!.
Defined.

(** *** The next note *)

Lemma getNextNoteForStage_run s m stage :
  document s = Some m ->
  getNextNoteForStage stage s
  = (Returns (first_unsettled (stage_get (stages m) stage) (seqZ 0 (totalNotes m))), s).
Proof. intros H. open_system s H. by run_method. Qed.

Lemma first_unsettled_ext p p' l :
  (forall i, i ∈ l -> (settled p i <-> settled p' i)) ->
  first_unsettled p l = first_unsettled p' l.
Proof.
  induction l as [|i l IH]; intros H; simpl; [done|].
  assert (Hi : settled p i <-> settled p' i) by (apply H; left).
  rewrite IH by (intros j Hj; apply H; by right).
  destruct (negb (includes (processedNoteIds p) _) && _) eqn:E;
    destruct (negb (includes (processedNoteIds p') _) && _) eqn:E'; try done.
  - apply unsettled_test in E. destruct (decide (settled p' i)) as [S'|N'].
    + by apply Hi in S'.
    + apply unsettled_test in N'. congruence.
  - apply unsettled_test in E'. destruct (decide (settled p i)) as [S0|N0].
    + by apply Hi in S0.
    + apply unsettled_test in N0. congruence.
Qed.

Lemma first_unsettled_same_ids p p' l :
  processedNoteIds p = processedNoteIds p' ->
  failedNoteIds p = failedNoteIds p' ->
  first_unsettled p l = first_unsettled p' l.
Proof.
  intros Hp Hf. apply first_unsettled_ext. intros i _.
  unfold settled. by rewrite Hp, Hf.
Qed.

(** X11. [completeStage] does not look at the ids: after it the stage
    reports complete, while [getNextNoteForStage] answers as before, so a
    stage can be complete with notes still pending. The answer of
    [getNextNoteForStage] is not changed by [startStage] or [failStage]
    either. *)
Theorem completion_is_not_checked s m stage :
  document s = Some m ->
  outcome (isStageComplete stage) (after (completeStage stage) s) = Returns true
  /\ (forall c,
        (forall stage' noteId success,
           c <> do_updateNoteProgress stage' noteId success) ->
        outcome (getNextNoteForStage stage) (after (perform c) s)
        = outcome (getNextNoteForStage stage) s).
Proof.
  intros Hdoc. split.
  - destruct (completeStage_document s m stage Hdoc) as (now & updated & Hdoc').
    revert Hdoc'. generalize (after (completeStage stage) s). intros s' Hdoc'.
    open_system s' Hdoc'. run_method. by rewrite stage_get_set_eq.
  - intros c Hc. unfold outcome.
    rewrite (getNextNoteForStage_run s m stage Hdoc).
    destruct c as [st|st noteId success|st|st msg]; simpl.
    + destruct (startStage_document s m st Hdoc) as (now & updated & Hdoc').
      rewrite (getNextNoteForStage_run _ _ stage Hdoc').
      case_bool_decide; [done|]. simpl. rewrite stage_get_set.
      case_decide; subst; [f_equal; by apply first_unsettled_same_ids | done].
    + by destruct (Hc st noteId success).
    + destruct (completeStage_document s m st Hdoc) as (now & updated & Hdoc').
      rewrite (getNextNoteForStage_run _ _ stage Hdoc').
      simpl. rewrite stage_get_set.
      case_decide; subst; [f_equal; by apply first_unsettled_same_ids | done].
    + destruct (failStage_document s m st msg Hdoc) as (updated & Hdoc').
      rewrite (getNextNoteForStage_run _ _ stage Hdoc').
      simpl. rewrite stage_get_set.
      case_decide; subst; [f_equal; by apply first_unsettled_same_ids | done].
Qed.

Lemma completion_is_not_checked_witness :
  outcome (isStageComplete RAW_EXPORT) (after (completeStage RAW_EXPORT) loaded_system)
  = Returns true
  /\ outcome (getNextNoteForStage RAW_EXPORT)
       (after (completeStage RAW_EXPORT) loaded_system)
     = Returns (Some "0").
Proof.
  destruct (completion_is_not_checked loaded_system stored_document RAW_EXPORT)
    as (Hc & Hn); [vm_compute; reflexivity|].
  split; [exact Hc|].
  etrans; [exact (Hn (do_completeStage RAW_EXPORT) ltac:(intros; discriminate))|].
  vm_compute. reflexivity.
Defined.

Lemma updateNoteProgress_settled s m stage noteId success :
  document s = Some m ->
  exists m',
    document (after (updateNoteProgress stage noteId success) s) = Some m'
    /\ totalNotes m' = totalNotes m
    /\ (forall stage', stage' <> stage ->
          stage_get (stages m') stage' = stage_get (stages m) stage')
    /\ forall k,
         settled (stage_get (stages m') stage) k
         <-> settled (stage_get (stages m) stage) k \/ toString k = noteId.
Proof.
  intros Hdoc.
  destruct (updateNoteProgress_document s m stage noteId success Hdoc)
    as (now & updated & ->).
  eexists. split; [reflexivity|]. simpl. split_and!; [done| |].
  - intros stage' Hne. by rewrite stage_get_set_ne.
  - intros k. rewrite stage_get_set_eq. unfold settled; simpl.
    rewrite record_note_processed, record_note_failed.
    destruct success; intuition congruence.
Qed.

(** X12. Once the id returned by [getNextNoteForStage] has been recorded
    with [updateNoteProgress], as processed or as failed, the method
    never offers it again: its next answer is [null] or the id of a
    strictly greater index. *)
Theorem recorded_note_is_not_offered_again s m stage noteId success :
  document s = Some m ->
  outcome (getNextNoteForStage stage) s = Returns (Some noteId) ->
  exists i,
    noteId = toString i /\ 0 <= i < totalNotes m /\
    let s' := after (updateNoteProgress stage noteId success) s in
    (outcome (getNextNoteForStage stage) s' = Returns None
     \/ exists j, i < j < totalNotes m
                  /\ outcome (getNextNoteForStage stage) s'
                     = Returns (Some (toString j))).
Proof.
  intros Hdoc Hnext. unfold outcome in Hnext.
  rewrite (getNextNoteForStage_run s m stage Hdoc) in Hnext. simpl in Hnext.
  injection Hnext as Hnext.
  apply first_unsettled_seqZ_Some in Hnext as (i & Hi & -> & Hun & Hlow).
  exists i. split_and!; [done|lia|lia|]. intros s'.
  destruct (updateNoteProgress_settled s m stage (toString i) success Hdoc)
    as (m' & Hdoc' & Hn & _ & Hset). fold s' in Hdoc'.
  unfold outcome. rewrite (getNextNoteForStage_run s' m' stage Hdoc'). simpl.
  destruct (first_unsettled _ _) as [id'|] eqn:E; [right|by left].
  apply first_unsettled_seqZ_Some in E as (j & Hj & -> & Hunj & _).
  exists j. split; [|done]. rewrite Hn in Hj. split; [|lia].
  destruct (Z_lt_le_dec i j) as [|Hle]; [done|]. destruct Hunj. apply Hset.
  destruct (decide (j = i)) as [->|Hne]; [by right|].
  left. apply Hlow. lia.
Qed.

Lemma recorded_note_is_not_offered_again_witness :
  exists i,
    "3" = toString i /\ 0 <= i < 10 /\
    let s' := after (updateNoteProgress RAW_EXPORT "3" false)
                (after (initialize 10) (boot resumed_world)) in
    (outcome (getNextNoteForStage RAW_EXPORT) s' = Returns None
     \/ exists j, i < j < 10
                  /\ outcome (getNextNoteForStage RAW_EXPORT) s'
                     = Returns (Some (toString j))).
Proof.
  apply (recorded_note_is_not_offered_again
           (after (initialize 10) (boot resumed_world)) resumed_document).
  - vm_compute. reflexivity.
  - vm_compute. reflexivity.
Defined.

Lemma drain_from stage rounds :
  forall s m lo,
    document s = Some m ->
    (forall j, 0 <= j < lo -> settled (stage_get (stages m) stage) j) ->
    (Z.to_nat (totalNotes m - lo) <= length rounds)%nat ->
    exists m',
      document (drain rounds stage s) = Some m'
      /\ totalNotes m' = totalNotes m
      /\ forall i, 0 <= i < totalNotes m ->
                   settled (stage_get (stages m') stage) i.
Proof.
  induction rounds as [|success rounds IH]; intros s m lo Hdoc Hlo Hlen; simpl.
  - exists m. split_and!; [done..|]. intros i Hi. apply Hlo. simpl in Hlen. lia.
  - unfold outcome. rewrite (getNextNoteForStage_run s m stage Hdoc). simpl.
    destruct (first_unsettled _ _) as [noteId|] eqn:E.
    + apply first_unsettled_seqZ_Some in E as (i & Hi & -> & Hun & Hlow).
      destruct (updateNoteProgress_settled s m stage (toString i) success Hdoc)
        as (m1 & Hdoc1 & Hn1 & _ & Hset).
      assert (lo <= i).
      { destruct (Z_le_gt_dec lo i); [done|]. destruct Hun. apply Hlo. lia. }
      destruct (IH _ m1 (i + 1) Hdoc1) as (m' & Hdoc' & Hn' & Hall).
      * intros j Hj. apply Hset.
        destruct (decide (j = i)) as [->|]; [by right|]. left. apply Hlow. lia.
      * rewrite Hn1. simpl in Hlen. lia.
      * exists m'. split_and!; [done|congruence|].
        intros k Hk. apply Hall. lia.
    + exists m. split_and!; [done..|].
      by apply first_unsettled_seqZ_None.
Qed.

(** X13. Working through a stage ends: asking for the next note and
    recording an outcome for it, whatever the outcome, settles every index
    within [totalNotes] rounds, after which [getNextNoteForStage] returns
    [null]. *)
Theorem drain_settles_every_note rounds s m stage :
  document s = Some m ->
  (Z.to_nat (totalNotes m) <= length rounds)%nat ->
  outcome (getNextNoteForStage stage) (drain rounds stage s) = Returns None
  /\ exists m',
       document (drain rounds stage s) = Some m'
       /\ forall i, 0 <= i < totalNotes m ->
                    settled (stage_get (stages m') stage) i.
Proof.
  intros Hdoc Hlen.
  destruct (drain_from stage rounds s m 0 Hdoc) as (m' & Hdoc' & Hn & Hall).
  - intros j Hj. lia.
  - by rewrite Z.sub_0_r.
  - split; [|by eauto]. unfold outcome.
    rewrite (getNextNoteForStage_run _ m' stage Hdoc'). simpl. f_equal.
    apply first_unsettled_seqZ_None. rewrite Hn. exact Hall.
Qed.

Lemma drain_settles_every_note_witness :
  outcome (getNextNoteForStage ENRICHMENT)
    (drain [true; false; true; true; true; false; true; true; true; true]
       ENRICHMENT (after (initialize 10) (boot resumed_world)))
  = Returns None.
Proof.
  apply (drain_settles_every_note _ _ resumed_document).
  - vm_compute. reflexivity.
  - simpl. lia.
Defined.

(** X14. [getNextNoteForStage] looks only for the decimal strings of the
    indices below [totalNotes]: recording any other id (say the id a note
    has in the note store) changes none of its answers, so the note it
    offers stays the same. *)
Theorem foreign_id_does_not_advance s m noteId :
  document s = Some m ->
  (forall i, 0 <= i < totalNotes m -> toString i <> noteId) ->
  forall stage stage' success,
    outcome (getNextNoteForStage stage)
      (after (updateNoteProgress stage' noteId success) s)
    = outcome (getNextNoteForStage stage) s.
Proof.
  intros Hdoc Hforeign stage stage' success.
  destruct (updateNoteProgress_settled s m stage' noteId success Hdoc)
    as (m' & Hdoc' & Hn & Hother & Hset).
  unfold outcome.
  rewrite (getNextNoteForStage_run s m stage Hdoc),
    (getNextNoteForStage_run _ m' stage Hdoc'). simpl. f_equal. rewrite Hn.
  destruct (decide (stage = stage')) as [->|Hne]; [|by rewrite Hother].
  apply first_unsettled_ext. intros i Hi%elem_of_seqZ. rewrite Hset.
  split; [intros [|]; [done|] | by left]. destruct (Hforeign i); [lia|done].
Qed.

Lemma foreign_id_does_not_advance_witness :
  outcome (getNextNoteForStage RAW_EXPORT)
    (after (updateNoteProgress RAW_EXPORT "x-coredata://note/p7" true) loaded_system)
  = outcome (getNextNoteForStage RAW_EXPORT) loaded_system.
Proof.
  apply (foreign_id_does_not_advance loaded_system stored_document).
  - vm_compute. reflexivity.
  - intros i Hi. simpl in Hi. assert (i = 0) as -> by lia. discriminate.
Defined.

(** *** The percentage *)

(** X15. The count of processed notes reported by
    [getStageProgressPercentage] never decreases over a sequence of calls,
    and the note count it is divided by stays the same. *)
Theorem processed_count_never_decreases cs s m stage :
  document s = Some m ->
  exists num num' den,
    outcome (getStageProgressPercentage stage) s = Returns (num, den)
    /\ outcome (getStageProgressPercentage stage) (perform_all cs s)
       = Returns (num', den)
    /\ num <= num'.
Proof.
  revert s m. induction cs as [|c cs IH]; intros s m Hdoc; simpl.
  - open_system s Hdoc. run_method. eexists _, _, _. split_and!; try done.
  - destruct (perform_document c s m Hdoc) as (p & updated & Hdoc' & Hp & _).
    destruct (IH _ _ Hdoc') as (num1 & num' & den & H1 & H' & Hle).
    rewrite H'. clear H' IH.
    generalize dependent (after (perform c) s). intros s1 Hdoc1 H1.
    open_system s Hdoc. open_system s1 Hdoc1. run_method.
    injection H1 as <- <-. eexists _, _, _. split_and!; [done..|].
    etrans; [|exact Hle]. rewrite stage_get_set. case_decide; subst; [|done].
    apply prefix_length in Hp. lia.
Qed.

Lemma processed_count_never_decreases_witness :
  exists num num' den,
    outcome (getStageProgressPercentage RAW_EXPORT) loaded_system
    = Returns (num, den)
    /\ outcome (getStageProgressPercentage RAW_EXPORT)
         (perform_all disjoint_calls loaded_system)
       = Returns (num', den)
    /\ num <= num'.
Proof.
  apply (processed_count_never_decreases disjoint_calls loaded_system stored_document).
  vm_compute. reflexivity.
Defined.

(** *** The JSON helpers *)

Lemma tmp_path_ne filePath : filePath +:+ ".tmp" <> filePath.
Proof.
  intros H. apply (f_equal String.length) in H.
  rewrite string_length_app in H. simpl in H. lia.
Qed.

(** What [unlink] leaves at its path, whether it succeeds or not. *)
Lemma fs_unlink_lookup path w :
  files (snd (fs_unlink path w)) !! path = None.
Proof.
  unfold fs_unlink. simpl.
  destruct (files w !! path) eqn:E; simpl; [by rewrite lookup_delete_eq|].
  by destruct (bool_decide _).
Qed.

(** X18. With the [safe] option the write goes through [<path>.tmp] and
    leaves no such file behind: a file that was there before the call is
    overwritten and then renamed away. Without the option the [.tmp] file
    is left as it was. *)
Theorem safe_write_consumes_tmp_file data directory filename w :
  let filePath := getFilePath w directory filename in
  files (snd (writeJSONToDirectory data directory filename true w))
  !! (filePath +:+ ".tmp") = None
  /\ files (snd (writeJSONToDirectory data directory filename false w))
     !! (filePath +:+ ".tmp") = files w !! (filePath +:+ ".tmp").
Proof.
  intros filePath. unfold writeJSONToDirectory. fold filePath.
  pose proof (tmp_path_ne filePath) as Hne.
  unfold writeJSONSafe, writeJSON, fs_writeFile, fs_rename, JSON_stringify,
    bind, try_catch, ret, throw.
  split.
  - destruct (writable _ (filePath +:+ ".tmp")); simpl.
    + rewrite lookup_insert_eq.
      destruct (writable _ filePath); simpl.
      * rewrite lookup_insert_ne by done. by rewrite lookup_delete_eq.
      * match goal with
        | |- context [fs_unlink ?p ?w1] =>
            pose proof (fs_unlink_lookup p w1) as Hu;
            destruct (fs_unlink p w1) as [[[]|?] ?]
        end; exact Hu.
    + match goal with
      | |- context [fs_unlink ?p ?w1] =>
          pose proof (fs_unlink_lookup p w1) as Hu;
          destruct (fs_unlink p w1) as [[[]|?] ?]
      end; exact Hu.
  - destruct (writable _ filePath); simpl; [|done].
    by rewrite lookup_insert_ne.
Qed.


(** *** Paths *)

Lemma string_app_inj_r s1 s2 e : s1 +:+ e = s2 +:+ e -> s1 = s2.
Proof.
  revert s2. induction s1 as [|a s1 IH]; intros [|b s2] H.
  - done.
  - apply (f_equal String.length) in H.
    rewrite !string_length_app in H. simpl in H. lia.
  - apply (f_equal String.length) in H.
    rewrite !string_length_app in H. simpl in H. lia.
  - change (String a (s1 +:+ e) = String b (s2 +:+ e)) in H.
    injection H as -> H. f_equal. by apply IH.
Qed.

Lemma fileExists_run path w :
  fileExists path w
  = (Returns (bool_decide (is_Some (files w !! path)) || bool_decide (path ∈ dirs w)),
     logged (call_access path) w).
Proof.
  unfold fileExists, fs_access, bind, try_catch, ret. simpl.
  by destruct (_ || _).
Qed.

Lemma present_test w path :
  bool_decide (is_Some (files w !! path)) || bool_decide (path ∈ dirs w) = true
  <-> present w path.
Proof.
  unfold present. rewrite orb_true_iff, !bool_decide_eq_true. done.
Qed.

Lemma getUniqueFilename_loop_spec dir base ext fuel :
  forall counter name w,
    let candidate k := base +:+ "_" +:+ pretty k +:+ ext in
    exists r w',
      getUniqueFilename_loop fuel dir base ext counter name w = (Returns r, w')
      /\ files w' = files w /\ dirs w' = dirs w
      /\ ((~ present w (path_join dir r)
           /\ (r = name
               \/ present w (path_join dir name)
                  /\ exists k, (counter < k)%nat /\ r = candidate k
                       /\ forall j, (counter < j < k)%nat ->
                                    present w (path_join dir (candidate j))))
          \/ (present w (path_join dir name)
              /\ forall j, (counter < j <= counter + fuel)%nat ->
                           present w (path_join dir (candidate j)))).
Proof.
  induction fuel as [|fuel IH]; intros counter name w candidate; simpl;
    unfold bind; rewrite fileExists_run;
    destruct (_ || _) eqn:E; simpl.
  - apply present_test in E. eexists _, _. split_and!; [done..|].
    right. split; [done|]. intros j Hj. lia.
  - eexists _, _. split_and!; [done..|]. left. split; [|by left].
    intros H%present_test. congruence.
  - apply present_test in E.
    destruct (IH (S counter) (candidate (S counter))
                (logged (call_access (path_join dir name)) w))
      as (r & w' & Hrun & Hf & Hd & Hres).
    exists r, w'. split_and!; [done..|].
    destruct Hres as [(Hfree & Hr)|(Hp & Hall)].
    + left. split; [done|]. right. split; [done|].
      destruct Hr as [->|(Hp & k & Hk & -> & Hlow)].
      * exists (S counter). split_and!; [lia|done|]. intros j Hj. lia.
      * exists k. split_and!; [lia|done|]. intros j Hj.
        destruct (decide (j = S counter)) as [->|]; [done|]. apply Hlow. lia.
    + right. split; [done|]. intros j Hj.
      destruct (decide (j = S counter)) as [->|]; [done|]. apply Hall. lia.
  - eexists _, _. split_and!; [done..|]. left. split; [|by left].
    intros H%present_test. congruence.
Qed.

(** No more paths are present than there are files and directories. *)
Lemma present_paths_bounded w (paths : list string) :
  NoDup paths ->
  (forall path, path ∈ paths -> present w path) ->
  (length paths <= size (files w) + size (dirs w))%nat.
Proof.
  intros Hnd Hall.
  rewrite <- (size_list_to_set (C:=gset string) paths) by done.
  rewrite <- (size_dom (D:=gset string) (files w)).
  etrans; [apply (subseteq_size _ (dom (files w) ∪ dirs w))|].
  - intros path Hp%elem_of_list_to_set. apply elem_of_union.
    destruct (Hall path Hp) as [H|H]; [left; by apply elem_of_dom | by right].
  - rewrite size_union_alt.
    assert (size (dirs w ∖ dom (files w)) <= size (dirs w))%nat.
    { apply subseteq_size. intros x Hx%elem_of_difference. tauto. }
    lia.
Qed.

Lemma has_char_app c s1 s2 :
  has_char c (s1 +:+ s2) = has_char c s1 || has_char c s2.
Proof.
  induction s1 as [|c' s1 IH]; [done|].
  change (String c' s1 +:+ s2) with (String c' (s1 +:+ s2)). simpl.
  by rewrite IH, orb_assoc.
Qed.

(** A printed number holds digits only. *)
Lemma has_char_pretty_N_go x s :
  has_char "/" s = false -> has_char "/" (pretty_N_go x s) = false.
Proof.
  revert s. induction (N.lt_wf_0 x) as [x _ IH]; intros s Hs.
  assert (x = 0 \/ 0 < x)%N as [->|Hx] by lia; [by rewrite pretty_N_go_0|].
  rewrite pretty_N_go_step by done. apply IH; [by apply N.div_lt|].
  simpl. rewrite Hs, orb_false_r. unfold pretty_N_char. by repeat case_match.
Qed.

Lemma has_char_pretty_nat (k : nat) : has_char "/" (pretty k) = false.
Proof.
  unfold pretty, pretty_nat, pretty, pretty_N.
  case_decide; [done|]. by apply has_char_pretty_N_go.
Qed.

(** The numbered names [<base>_<k><ext>] are plain when [base] and [ext]
    hold no ["/"]. *)
Lemma numbered_name_plain base ext (k : nat) :
  has_char "/" base = false -> has_char "/" ext = false ->
  plain (base +:+ "_" +:+ pretty k +:+ ext).
Proof.
  intros Hbase Hext.
  assert (has_char "_" (base +:+ "_" +:+ pretty k +:+ ext) = true) as Hu.
  { rewrite has_char_app. apply orb_true_iff. by right. }
  split_and!; try (intros E; by rewrite E in Hu).
  rewrite !has_char_app, Hbase, Hext, has_char_pretty_nat. done.
Qed.

(** The numbered names are pairwise different, so they cannot all be taken. *)
Lemma numbered_names_not_all_present w dir base ext :
  has_char "/" base = false -> has_char "/" ext = false ->
  ~ forall j, (1 <= j <= S (size (files w) + size (dirs w)))%nat ->
              present w (path_join dir (base +:+ "_" +:+ pretty j +:+ ext)).
Proof.
  intros Hbase Hext Hall.
  pose proof (present_paths_bounded w
                ((fun k => path_join dir (base +:+ "_" +:+ pretty k +:+ ext))
                 <$> seq 1 (S (size (files w) + size (dirs w))))) as Hbound.
  rewrite length_fmap, length_seq in Hbound.
  enough (S (size (files w) + size (dirs w)) <= size (files w) + size (dirs w))%nat
    by lia.
  apply Hbound.
  - apply NoDup_fmap_2_strong; [|apply NoDup_seq].
    intros j j' _ _ H.
    apply path_join_plain_inj in H; [|by apply numbered_name_plain..].
    do 2 apply String.app_inj in H. apply string_app_inj_r in H.
    by apply (inj pretty) in H.
  - intros path (k & -> & Hk%elem_of_seq)%list_elem_of_fmap.
    apply Hall. lia.
Qed.

(** X30. [getUniqueFilename] ends and returns a name under which nothing
    exists in the directory: the given file name when it is free,
    otherwise [<base>_<k><ext>] for the smallest [k >= 1] that is free.
    It changes no file and no directory. The file name is any string
    that does not end in ["/"] (a name that does is looked up without its
    last ["/"]); the base name and the extension that [node:path] takes
    from a file name hold no ["/"]. *)
Theorem getUniqueFilename_is_free extname basename directory filename w :
  trailingSeparator filename = false ->
  has_char "/" (basename filename (extname filename)) = false ->
  has_char "/" (extname filename) = false ->
  let dir := DIRECTORIES w directory in
  let candidate k :=
    basename filename (extname filename) +:+ "_" +:+ pretty k
    +:+ extname filename in
  exists r w',
    getUniqueFilename extname basename directory filename w = (Returns r, w')
    /\ files w' = files w /\ dirs w' = dirs w
    /\ ~ present w (path_join dir r)
    /\ (r = filename
        \/ present w (path_join dir filename)
           /\ exists k, (1 <= k)%nat /\ r = candidate k
                /\ forall j, (1 <= j < k)%nat ->
                             present w (path_join dir (candidate j))).
Proof.
  intros _ Hbase Hext dir candidate. unfold getUniqueFilename.
  destruct (getUniqueFilename_loop_spec dir (basename filename (extname filename))
              (extname filename) (S (size (files w) + size (dirs w))) 0 filename w)
    as (r & w' & Hrun & Hf & Hd & Hres).
  exists r, w'. split_and!; [done..| |];
    (destruct Hres as [(Hfree & Hr)|(_ & Hall)];
     [|destruct (numbered_names_not_all_present w dir
                   (basename filename (extname filename)) (extname filename));
       [done..|]; intros j Hj; apply Hall; lia]).
  - done.
  - destruct Hr as [->|(Hp & k & Hk & -> & Hlow)]; [by left|].
    right. split; [done|]. exists k. split_and!; [lia|done|].
    intros j Hj. apply Hlow. lia.
Qed.

Lemma getUniqueFilename_is_free_witness :
  exists r w',
    getUniqueFilename (fun _ => ".json") (fun _ _ => "note") RAW "note.json"
      crowded_world
    = (Returns r, w')
    /\ files w' = files crowded_world /\ dirs w' = dirs crowded_world
    /\ ~ present crowded_world (path_join "/app/data/raw" r)
    /\ (r = "note.json"
        \/ present crowded_world (path_join "/app/data/raw" "note.json")
           /\ exists k, (1 <= k)%nat /\ r = "note" +:+ "_" +:+ pretty k +:+ ".json"
                /\ forall j, (1 <= j < k)%nat ->
                     present crowded_world
                       (path_join "/app/data/raw"
                          ("note" +:+ "_" +:+ pretty j +:+ ".json"))).
Proof.
  apply (getUniqueFilename_is_free (fun _ => ".json") (fun _ _ => "note") RAW
           "note.json" crowded_world); reflexivity.
Defined.

(** *** Resolved paths *)

Lemma string_app_nil_r s : s +:+ EmptyString = s.
Proof.
  induction s as [|c s IH]; [done|].
  change (String c (s +:+ EmptyString) = String c s). by rewrite IH.
Qed.

Lemma string_prefix_app_r a b : String.prefix a (a +:+ b) = true.
Proof.
  induction a as [|c a IH]; [by destruct b|].
  change (String c a +:+ b) with (String c (a +:+ b)).
  cbn [String.prefix]. by destruct (ascii_dec c c).
Qed.

Lemma segments_app_all a t :
  segments (a +:+ "/" +:+ t) = (segments a ++ segments t)%list.
Proof.
  induction a as [|c a IH]; [done|].
  change (String c a +:+ "/" +:+ t) with (String c (a +:+ "/" +:+ t)).
  cbn [segments]. rewrite IH. destruct (Ascii.eqb c "/"); [done|].
  pose proof (segments_nonempty a). by destruct (segments a).
Qed.

Lemma segments_join L :
  Forall plain L -> L <> [] -> segments (join_segments L) = L.
Proof.
  induction 1 as [|x L Hx HL IH]; [done|]. intros _.
  destruct L as [|y L]; [apply segments_plain, Hx|].
  change (join_segments (x :: y :: L)) with (x +:+ "/" +:+ join_segments (y :: L)).
  rewrite segments_app_all, IH by done. by rewrite segments_plain by apply Hx.
Qed.

Lemma foldl_normalize_plain allowAboveRoot L acc :
  Forall plain L ->
  foldl (normalize_segment allowAboveRoot) acc L = (reverse L ++ acc)%list.
Proof.
  intros HL. revert acc. induction HL as [|x L Hx HL IH]; intros acc; [done|].
  cbn [foldl]. rewrite normalize_segment_plain, IH by done.
  by rewrite reverse_cons, <- app_assoc.
Qed.

Lemma normalize_segment_empty allowAboveRoot kept :
  normalize_segment allowAboveRoot kept EmptyString = kept.
Proof. unfold normalize_segment. by rewrite bool_decide_eq_true_2 by by left. Qed.

(** A path made of ["/"] and plain segments is kept as it is, with or
    without a ["/"] at its end. *)
Lemma kept_segments_rendered L (trailing : bool) :
  Forall plain L ->
  kept_segments
    (("/" +:+ join_segments L) +:+ (if trailing then "/" else EmptyString)) false
  = reverse L.
Proof.
  intros HL. unfold kept_segments.
  assert (foldl (normalize_segment false) [] (segments ("/" +:+ join_segments L))
          = reverse L) as Hplain.
  { change ("/" +:+ join_segments L) with (String "/" (join_segments L)).
    cbn [segments]. rewrite Ascii.eqb_refl. cbn [foldl].
    rewrite normalize_segment_empty.
    destruct L as [|x L].
    - cbn [join_segments segments foldl]. by rewrite normalize_segment_empty.
    - rewrite segments_join, foldl_normalize_plain by done. by rewrite app_nil_r. }
  destruct trailing; [|by rewrite string_app_nil_r].
  change "/" with ("/" +:+ EmptyString) at 2.
  rewrite segments_app_all, foldl_app, Hplain. cbn [segments foldl].
  by rewrite normalize_segment_empty.
Qed.

Lemma path_resolve_rendered cwd L :
  Forall plain L ->
  path_resolve cwd ("/" +:+ join_segments L) = "/" +:+ join_segments L.
Proof.
  intros HL. unfold path_resolve, resolve_argument.
  rewrite bool_decide_eq_false_2 by done.
  change (isAbsolute ("/" +:+ join_segments L)) with true. cbn [negb].
  unfold normalizeString.
  change ("/" +:+ EmptyString) with "/".
  rewrite (kept_segments_rendered L true HL). by rewrite reverse_involutive.
Qed.

Lemma path_join_rendered L b :
  Forall plain L -> plain b ->
  path_join ("/" +:+ join_segments L) b = "/" +:+ join_segments (L ++ [b]).
Proof.
  intros HL Hb. rewrite path_join_plain by done. unfold join_prefix.
  change (isAbsolute ("/" +:+ join_segments L)) with true. cbn [negb].
  pose proof (kept_segments_rendered L false HL) as Hk.
  rewrite string_app_nil_r in Hk. rewrite Hk, join_segments_snoc.
  destruct L as [|x L]; [done|].
  destruct (reverse (x :: L)) as [|y K] eqn:E.
  { apply (f_equal length) in E. rewrite length_reverse in E. done. }
  rewrite <- E, reverse_involutive. by rewrite !string_app_assoc.
Qed.

(** The directories of the configuration, for a working directory that
    is an absolute path in normal form. *)
Lemma DIRECTORIES_rendered w directory L :
  Forall plain L -> cwd w = "/" +:+ join_segments L ->
  exists M name,
    Forall plain M /\ M <> [] /\ plain name
    /\ (forall x, has_char "/" x = false -> plain (name +:+ x))
    /\ DIRECTORIES w directory = "/" +:+ join_segments (M ++ [name]).
Proof.
  intros HL Hcwd. unfold DIRECTORIES, BASE_DIR. rewrite Hcwd.
  assert (plain "data") as Hdata by (by split_and!).
  rewrite path_join_rendered by done.
  assert (Forall plain (L ++ ["data"])) as HM
    by (apply Forall_app; split; [done | by constructor]).
  exists (L ++ ["data"])%list.
  assert (forall name : string,
            plain name -> (exists c rest, name = String c rest /\ c <> "."%char) ->
            forall x, has_char "/" x = false -> plain (name +:+ x)) as Hext.
  { intros name (_ & _ & _ & Hn) (c & rest & -> & Hc) x Hx.
    change (String c rest +:+ x) with (String c (rest +:+ x)).
    split_and!; try (intros [= ?]; done).
    change (String c (rest +:+ x)) with (String c rest +:+ x).
    by rewrite has_char_app, Hn, Hx. }
  destruct directory; eexists; (split_and!; [done | by destruct L | | |
    by apply path_join_rendered]);
    try (by split_and!); apply Hext; try (by split_and!); by eexists _, _.
Qed.

(** X32. [isPathInDirectory] compares the characters of the resolved
    paths, not their segments: a file in a neighbouring directory whose
    name only begins like the name of the directory (say [raw-old] beside
    [raw]) is accepted, though it is not within the directory. *)
Theorem isPathInDirectory_accepts_sibling w directory L x f :
  Forall plain L -> cwd w = "/" +:+ join_segments L ->
  x <> EmptyString -> has_char "/" x = false -> plain f ->
  let dir := DIRECTORIES w directory in
  let path := dir +:+ x +:+ "/" +:+ f in
  isPathInDirectory w directory path = true
  /\ path_resolve (cwd w) dir = dir
  /\ path_resolve (cwd w) path = path
  /\ ~ within dir path.
Proof.
  intros HL Hcwd Hx0 Hx Hf dir path.
  destruct (DIRECTORIES_rendered w directory L HL Hcwd)
    as (M & name & HM & HM0 & Hname & Hext & Hdir).
  fold dir in Hdir.
  assert (path = "/" +:+ join_segments ((M ++ [name +:+ x]) ++ [f])) as Hpath.
  { unfold path. rewrite Hdir, !join_segments_snoc.
    destruct M as [|m M]; [done|].
    destruct ((m :: M) ++ [name +:+ x])%list eqn:E; [by destruct M|].
    by rewrite !string_app_assoc. }
  assert (path_resolve (cwd w) dir = dir) as Rdir.
  { rewrite Hdir. apply path_resolve_rendered.
    apply Forall_app. split; [done | by constructor]. }
  assert (path_resolve (cwd w) path = path) as Rpath.
  { rewrite Hpath. apply path_resolve_rendered.
    repeat (apply Forall_app; split); try done; constructor; auto. }
  split_and!; [|done|done|].
  - unfold isPathInDirectory. fold dir. rewrite Rdir, Rpath.
    apply string_prefix_app_r.
  - intros [Heq|[rest Heq]]; unfold path in Heq.
    + rewrite <- (string_app_nil_r dir) in Heq at 2.
      apply String.app_inj in Heq. by destruct x.
    + apply String.app_inj in Heq. destruct x as [|c x]; [done|].
      injection Heq as -> _. by simpl in Hx.
Qed.

Lemma isPathInDirectory_accepts_sibling_witness :
  isPathInDirectory stored_world RAW "/app/data/raw-old/secret.json" = true
  /\ ~ within "/app/data/raw" "/app/data/raw-old/secret.json".
Proof.
  destruct (isPathInDirectory_accepts_sibling stored_world RAW ["app"] "-old"
              "secret.json")
    as (H1 & _ & _ & H2); [repeat constructor; done | done..| by split].
Defined.

End CheckpointExtras.

(** * Further properties of the rate limiter and the retry loop *)

Module OpenAIExtras.
Import OpenAI OpenAIProofs.

Lemma retry_delay_bounds r : 0 < retry_delay r <= 8000.
Proof.
  rewrite retry_delay_formula.
  assert (0 < 2 ^ Z.of_nat r) by (apply Z.pow_pos_nonneg; lia). lia.
Qed.

(** *** The retry loop *)

(** X21. The retry loop returns the value of the first attempt that
    succeeds and makes no attempt after it; the fields of the service are
    not touched. With a success on the first attempt there is one
    invocation and no sleep. *)
Theorem first_success_is_returned {T} (operation : nat -> Outcome T)
    k v attempts s :
  (forall j, (j < k)%nat ->
     threw (operation (invocations (runtime s) + j)%nat) = true) ->
  operation (invocations (runtime s) + k)%nat = Returns v ->
  allows_retries (this s) k ->
  (k < attempts)%nat ->
  let run := retryWithExponentialBackoff attempts operation 0 in
  let s' := after run s in
  outcome run s = Settled (Returns v)
  /\ invocations (runtime s') = S (invocations (runtime s) + k)
  /\ this s' = this s
  /\ (k = 0%nat -> new_events run s = [ev_invoke (invocations (runtime s))]).
Proof.
  intros Hfail Hk Hallow Hatt run s'.
  destruct (retryWithExponentialBackoff_run operation k attempts s Hfail)
    as (c & Hrun); [right; split; [done | by rewrite Hk] | done |].
  unfold s', run, outcome, after, new_events, after. rewrite Hrun, Hk. simpl.
  split_and!; [done..|]. intros ->. by rewrite drop_app_length.
Qed.

Lemma first_success_is_returned_witness :
  outcome (retryWithExponentialBackoff 5 failing_twice 0) (boot None 0)
  = Settled (Returns "A short summary.")
  /\ invocations
       (runtime (after (retryWithExponentialBackoff 5 failing_twice 0)
                   (boot None 0)))
     = 3%nat.
Proof.
  destruct (first_success_is_returned failing_twice 2 "A short summary." 5
              (boot None 0))
    as (Ho & Hn & _).
  - intros [|[|j]] Hj; [reflexivity | reflexivity | simpl in Hj; lia].
  - reflexivity.
  - vm_compute. lia.
  - lia.
  - by split.
Defined.

(** X22. Whatever the operation does, a run of the retry loop of a
    service whose retry limit is [n] settles: it invokes the operation at
    least once and at most [n + 1] times, and spends at most [8000 * n]
    milliseconds sleeping between attempts. *)
Theorem retry_effort_is_bounded {T} (operation : nat -> Outcome T)
    n attempts s :
  retry_limit (maxRetries (this s)) = Some n ->
  (n < attempts)%nat ->
  let run := retryWithExponentialBackoff attempts operation 0 in
  let s' := after run s in
  (exists o, outcome run s = Settled o)
  /\ (invocations (runtime s) < invocations (runtime s')
      <= invocations (runtime s) + S n)%nat
  /\ 0 <= clock (runtime s') - clock (runtime s) <= 8000 * Z.of_nat n.
Proof.
  intros Hn Hatt run s'.
  destruct (retry_bounds_from operation n attempts 0 s Hn)
    as (Hinv & Hclock & Hsettle).
  change (retryCount_at 0) with 0%nat in *. fold run in Hinv, Hclock, Hsettle.
  fold s' in Hinv, Hclock, Hsettle. rewrite Nat.sub_0_r in *.
  destruct (Hsettle Hatt) as [? ?]. split_and!; [done|lia..].
Qed.

Lemma retry_effort_is_bounded_witness :
  let run := retryWithExponentialBackoff 4 always_failing 0 in
  (invocations (runtime (after run (boot None 0))) <= 4)%nat
  /\ clock (runtime (after run (boot None 0))) - 0 <= 24000.
Proof.
  destruct (retry_effort_is_bounded always_failing 3 4 (boot None 0))
    as (_ & Hinv & Hclock); [reflexivity | lia |].
  simpl in *. split; lia.
Defined.

(** *** The token counters *)

(** X23. A request is charged once: after [generateSummary] the fields of
    the service are those left by its single pass through the rate
    limiter, however many attempts the retry loop then makes. *)
Theorem retries_are_not_charged attempts content api s :
  this (after (generateSummary attempts content api) s)
  = this (after (handleRateLimit COMPLETIONS (estimateTokens content + 100)) s).
Proof. apply limited_then_retried_run. Qed.

Lemma handleRateLimit_other_type type tokens s type' :
  type' <> type ->
  tokens_of (this (after (handleRateLimit type tokens) s)) type'
  = tokens_of (this s) type'
  /\ lastTime_of (this (after (handleRateLimit type tokens) s)) type'
     = lastTime_of (this s) type'.
Proof.
  intros Hne. destruct s as [[N ct et lc le] [c i evs]]. run_service.
  destruct type, type'; try done; simpl;
    destruct (60000 <=? _)%Z, (_ <? _)%Z; done.
Qed.

(** X24. The two budgets are independent: an embedding request leaves the
    completions counter and its time stamp as they were, and a completion
    request leaves those of the embeddings. *)
Theorem budgets_are_independent {T} attempts content texts
    (api : nat -> Outcome string) (api' : nat -> Outcome T) s :
  (let s' := after (generateBatchEmbeddings attempts texts api') s in
   completionsTokens (this s') = completionsTokens (this s)
   /\ lastCompletionTime (this s') = lastCompletionTime (this s))
  /\ (let s' := after (generateSummary attempts content api) s in
      embeddingsTokens (this s') = embeddingsTokens (this s)
      /\ lastEmbeddingTime (this s') = lastEmbeddingTime (this s)).
Proof.
  split; intros s'.
  - assert (this s'
            = this (after (handleRateLimit EMBEDDINGS (totalEstimatedTokens texts)) s))
      as -> by apply limited_then_retried_run.
    apply (handleRateLimit_other_type EMBEDDINGS _ s COMPLETIONS). discriminate.
  - assert (this s'
            = this (after (handleRateLimit COMPLETIONS (estimateTokens content + 100)) s))
      as -> by apply limited_then_retried_run.
    apply (handleRateLimit_other_type COMPLETIONS _ s EMBEDDINGS). discriminate.
Qed.

Lemma total_tokens_nonneg type last rs : steady type last rs -> 0 <= total_tokens rs.
Proof.
  revert last. induction rs as [|r rs IH]; intros last H; simpl; [done|].
  destruct H as (_ & Hr & _ & Hrs). specialize (IH _ Hrs). lia.
Qed.

Lemma serve_within_minute r s :
  req_now r - lastTime_of (this s) (req_type r) < 60000 ->
  tokens_of (this s) (req_type r) + req_tokens r <= TOKENS_PER_MINUTE (req_type r) ->
  tokens_of (this (serve r s)) (req_type r)
  = tokens_of (this s) (req_type r) + req_tokens r
  /\ lastTime_of (this (serve r s)) (req_type r) = req_now r
  /\ events (runtime (serve r s))
     = (events (runtime s) ++ [ev_rate_limit (req_type r) (req_tokens r)])%list.
Proof.
  destruct r as [now type tokens], s as [[N ct et lc le] [c i evs]].
  unfold serve, at_time. simpl. intros Hlast Hsum. run_service.
  replace (60000 <=? now - lastTime_of _ type)%Z with false
    by (symmetry; apply Z.leb_gt; lia).
  replace (TOKENS_PER_MINUTE type <? tokens_of _ type + tokens)%Z with false
    by (symmetry; apply Z.ltb_ge; lia).
  simpl. by destruct type.
Qed.

(** X25. The counter is reset by a gap of a minute between two calls, not
    by the age of what it has counted: requests of one type that each
    arrive less than a minute after the one before are all added up, over
    however long a time they spread, and as long as the sum stays within
    the budget none of them sleeps. *)
Theorem steady_requests_accumulate type rs s :
  steady type (lastTime_of (this s) type) rs ->
  0 <= tokens_of (this s) type ->
  tokens_of (this s) type + total_tokens rs <= TOKENS_PER_MINUTE type ->
  tokens_of (this (serve_all rs s)) type = tokens_of (this s) type + total_tokens rs
  /\ events (runtime (serve_all rs s))
     = (events (runtime s)
        ++ ((fun r => ev_rate_limit (req_type r) (req_tokens r)) <$> rs))%list.
Proof.
  revert s. induction rs as [|r rs IH]; intros s Hsteady H0 Hsum; simpl.
  - split; [lia | by rewrite app_nil_r].
  - simpl in Hsteady, Hsum. destruct Hsteady as (<- & Hr & Hlast & Hrs).
    pose proof (total_tokens_nonneg _ _ _ Hrs) as Hnn.
    destruct (serve_within_minute r s) as (Htok & Htime & Hev); [done|lia|].
    destruct (IH (serve r s)) as (Htok' & Hev').
    + by rewrite Htime.
    + lia.
    + lia.
    + rewrite Htok', Hev', Htok, Hev. split; [lia | by rewrite <- app_assoc].
Qed.

Lemma steady_requests_accumulate_witness :
  tokens_of (this (serve_all steady_requests (boot None 0))) COMPLETIONS = 90000.
Proof.
  destruct (steady_requests_accumulate COMPLETIONS steady_requests (boot None 0))
    as (H & _).
  - unfold steady_requests, boot. simpl. split_and!; (reflexivity || lia).
  - simpl. lia.
  - unfold steady_requests, total_tokens. simpl. lia.
  - exact H.
Defined.

(** X26. A call that comes a minute or more after the previous call of
    its type starts a new count: afterwards the counter holds the cost of
    this call alone (even a cost above the budget) and the time stamp is
    the clock reading at entry. Such a call is never made to wait: a sleep
    it asks for has a duration that is not positive. *)
Theorem idle_minute_starts_new_count type tokens s :
  60000 <= clock (runtime s) - lastTime_of (this s) type ->
  let s' := after (handleRateLimit type tokens) s in
  tokens_of (this s') type = tokens
  /\ lastTime_of (this s') type = clock (runtime s)
  /\ Forall (fun ms => ms <= 0) (sleeps (new_events (handleRateLimit type tokens) s)).
Proof.
  intros Hidle. destruct s as [[N ct et lc le] [c i evs]].
  unfold new_events. run_service.
  replace (60000 <=? c - lastTime_of _ type)%Z with true
    by (symmetry; apply Z.leb_le; done).
  destruct (_ <? _)%Z; simpl.
  - rewrite <- app_assoc, drop_app_length. simpl.
    destruct type; simpl in *; split_and!; try done; try lia;
      repeat constructor; lia.
  - rewrite drop_app_length. simpl.
    destruct type; simpl in *; split_and!; try done; constructor.
Qed.

Lemma idle_minute_starts_new_count_witness :
  tokens_of
    (this (after (handleRateLimit COMPLETIONS 500)
             (at_time 250000 (serve_all steady_requests (boot None 0)))))
    COMPLETIONS = 500.
Proof.
  apply (idle_minute_starts_new_count COMPLETIONS 500
           (at_time 250000 (serve_all steady_requests (boot None 0)))).
  apply Z.leb_le. vm_compute. reflexivity.
Defined.

(** *** Token estimates *)

Lemma estimateTokens_bounds text :
  Z.of_nat (String.length text) <= 4 * estimateTokens text
  <= Z.of_nat (String.length text) + 3.
Proof.
  unfold estimateTokens.
  pose proof (Z.div_mod (Z.of_nat (String.length text) + 3) 4 ltac:(lia)).
  pose proof (Z.mod_pos_bound (Z.of_nat (String.length text) + 3) 4 ltac:(lia)).
  lia.
Qed.

Lemma totalEstimatedTokens_acc texts acc :
  foldl (fun sum text => sum + estimateTokens text) acc texts
  = acc + totalEstimatedTokens texts.
Proof.
  unfold totalEstimatedTokens. revert acc.
  induction texts as [|t texts IH]; intros acc; simpl; [lia|].
  rewrite (IH (acc + _)), (IH (0 + _)). lia.
Qed.

(** X27. The estimate [Math.ceil(length / 4)] is [0] for the empty text
    only and never counts fewer than a token for four characters; the
    estimate of a batch is the sum of the estimates of its texts, which
    covers all their characters and exceeds a quarter of them by less
    than one token per text. *)
Theorem token_estimates_cover_the_text text texts :
  (Z.of_nat (String.length text) <= 4 * estimateTokens text
   <= Z.of_nat (String.length text) + 3)
  /\ (estimateTokens text = 0 <-> text = EmptyString)
  /\ (let chars := Z.of_nat (String.length (foldr String.append EmptyString texts)) in
      chars <= 4 * totalEstimatedTokens texts
      <= chars + 3 * Z.of_nat (length texts)).
Proof.
  split; [|split].
  - apply estimateTokens_bounds.
  - pose proof (estimateTokens_bounds text). split.
    + intros H0. destruct text; [done|]. simpl in *. lia.
    + by intros ->.
  - induction texts as [|t texts IH]; simpl; [unfold totalEstimatedTokens; simpl; lia|].
    unfold totalEstimatedTokens. simpl. rewrite totalEstimatedTokens_acc.
    rewrite CheckpointExtras.string_length_app.
    pose proof (estimateTokens_bounds t). simpl in IH. lia.
Qed.

End OpenAIExtras.

(** * Properties of the progress report helpers *)

Module ProgressExtras.
Import Progress.

(** X28. For a whole number of milliseconds that a double holds exactly,
    [formatDuration] prints a duration below one second in milliseconds,
    as it is (a negative one included). From one second on it drops the
    milliseconds and prints hours, minutes and seconds that add up to the
    whole seconds of the duration, with minutes and seconds below 60;
    leading units that are zero are left out, but not a zero unit after a
    printed one. *)
Theorem formatDuration_parts ms :
  - 2 ^ 53 <= ms <= 2 ^ 53 ->
  (ms < 1000 -> formatDuration ms = pretty ms +:+ "ms")
  /\ (1000 <= ms ->
      exists h m s,
        0 <= h /\ 0 <= m < 60 /\ 0 <= s < 60
        /\ 3600 * h + 60 * m + s = ms / 1000
        /\ formatDuration ms
           = if (0 <? h)%Z then
               pretty h +:+ "h " +:+ pretty m +:+ "m " +:+ pretty s +:+ "s"
             else if (0 <? m)%Z then pretty m +:+ "m " +:+ pretty s +:+ "s"
             else pretty s +:+ "s").
Proof.
  intros _. unfold formatDuration. split.
  - intros H%Z.ltb_lt. by rewrite H.
  - intros H. replace (ms <? 1000)%Z with false by (symmetry; apply Z.ltb_ge; lia).
    set (t := ms / 1000).
    assert (0 <= t) by (apply Z.div_pos; lia).
    assert (0 <= t / 60) by (apply Z.div_pos; lia).
    assert (0 <= t / 60 / 60) by (apply Z.div_pos; lia).
    pose proof (Z.div_mod t 60 ltac:(lia)).
    pose proof (Z.mod_pos_bound t 60 ltac:(lia)).
    pose proof (Z.div_mod (t / 60) 60 ltac:(lia)).
    pose proof (Z.mod_pos_bound (t / 60) 60 ltac:(lia)).
    rewrite !Z.rem_mod_nonneg by lia.
    exists (t / 60 / 60), ((t / 60) mod 60), (t mod 60).
    split_and!; try lia.
    destruct (0 <? t / 60 / 60)%Z eqn:Eh; [done|]. apply Z.ltb_ge in Eh.
    assert ((t / 60) mod 60 = t / 60) as -> by lia.
    destruct (0 <? t / 60)%Z eqn:Em; [done|]. apply Z.ltb_ge in Em.
    assert (t mod 60 = t) as -> by lia. done.
Qed.

Lemma formatDuration_parts_witness :
  formatDuration 999 = "999ms"
  /\ exists h m s,
       0 <= h /\ 0 <= m < 60 /\ 0 <= s < 60
       /\ 3600 * h + 60 * m + s = 3725
       /\ formatDuration 3725000
          = if (0 <? h)%Z then
              pretty h +:+ "h " +:+ pretty m +:+ "m " +:+ pretty s +:+ "s"
            else if (0 <? m)%Z then pretty m +:+ "m " +:+ pretty s +:+ "s"
            else pretty s +:+ "s".
Proof.
  destruct (formatDuration_parts 999 ltac:(lia)) as [H1 _].
  destruct (formatDuration_parts 3725000 ltac:(lia)) as [_ H2].
  split.
  - rewrite H1 by lia. reflexivity.
  - apply H2. lia.
Defined.

End ProgressExtras.
